(** * rancher-auth-service: the server package, embedded and verified

    A shallow embedding of [server/auth_server.go] (the Config Manager, the
    Settings Synchronizer, the Identity Resolver and the Token Service) and
    of the [UpdateConfig] HTTP handler of the [service] package.

    Go packages become modules ([strings], [strconv], [client], [model],
    [providers], [server], [service]).  The package-level variables of
    [server] ([provider], [authConfigInMemory], [rancherClient]) become the
    fields of a [World] record that every operation threads through a small
    state monad; calls that leave the process (settings store, identity
    system, signer) are recorded in a trace. *)

From stdpp Require Import gmap strings list fin_maps.
From Stdlib Require Import Ascii String.

Local Open Scope string_scope.
Local Open Scope list_scope.

(** Go's [error]: [None] is [nil]. *)
Definition error : Type := string.

(* ===================================================================== *)
(** ** Package [strings] (the three functions the server uses)           *)
(* ===================================================================== *)

Module strings.

(** [strings.Join(elems, sep)]. *)
Fixpoint Join (elems : list string) (sep : string) : string :=
  match elems with
  | [] => ""
  | [e] => e
  | e :: rest => e +:+ sep +:+ Join rest sep
  end.

(** [strings.Split(s, sep)] for a one-byte separator: all the substrings
    between separators; the empty string yields one empty substring. *)
Fixpoint Split (s : string) (sep : ascii) : list string :=
  match s with
  | EmptyString => [""]
  | String c r =>
      if Ascii.eqb c sep then "" :: Split r sep
      else match Split r sep with
           | h :: t => String c h :: t
           | [] => [String c ""]
           end
  end.

(** The text before and after the first occurrence of [sep], if any. *)
Fixpoint Cut (s : string) (sep : ascii) : option (string * string) :=
  match s with
  | EmptyString => None
  | String c r =>
      if Ascii.eqb c sep then Some ("", r)
      else match Cut r sep with
           | Some (before, after) => Some (String c before, after)
           | None => None
           end
  end.

(** [strings.SplitN(s, sep, n)] for a one-byte separator and [n >= 0]:
    at most [n] substrings, the last one being the unsplit remainder. *)
Fixpoint SplitN (s : string) (sep : ascii) (n : nat) : list string :=
  match n with
  | 0 => []
  | 1 => [s]
  | S n' =>
      match Cut s sep with
      | Some (before, after) => before :: SplitN after sep n'
      | None => [s]
      end
  end.

(** [strings.HasPrefix(s, prefix)]. *)
Definition HasPrefix (s pre : string) : bool := String.prefix pre s.

(** [strings.TrimPrefix(s, prefix)]: [s] itself when it does not start
    with [prefix]. *)
Definition TrimPrefix (s pre : string) : string :=
  if HasPrefix s pre
  then String.substring (String.length pre) (String.length s - String.length pre) s
  else s.

(** The byte [c] does not occur in [s]. *)
Fixpoint free_of (c : ascii) (s : string) : bool :=
  match s with
  | EmptyString => true
  | String d r => negb (Ascii.eqb d c) && free_of c r
  end.

End strings.

(* ===================================================================== *)
(** ** Package [strconv]                                                  *)
(* ===================================================================== *)

Module strconv.

(** [strconv.FormatBool]. *)
Definition FormatBool (b : bool) : string :=
  if b then "true" else "false".

(** [strconv.ParseBool]: the accepted spellings, an error otherwise. *)
Definition ParseBool (str : string) : bool * option error :=
  if bool_decide (str ∈ ["1"; "t"; "T"; "true"; "TRUE"; "True"])
  then (true, None)
  else if bool_decide (str ∈ ["0"; "f"; "F"; "false"; "FALSE"; "False"])
  then (false, None)
  else (false, Some "strconv.ParseBool: invalid syntax").

End strconv.

(* ===================================================================== *)
(** ** Package [client] (go-rancher): the records the server touches      *)
(* ===================================================================== *)

Module client.

Record Resource := {
  Id : string;
  Type' : string;
}.

Definition Resource_zero : Resource := {| Id := ""; Type' := "" |}.

Record Identity := {
  Identity_Resource : Resource;
  ExternalId : string;
  ExternalIdType : string;
  Login : string;
  Name : string;
}.

Definition Identity_zero : Identity :=
  {| Identity_Resource := Resource_zero; ExternalId := "";
     ExternalIdType := ""; Login := ""; Name := "" |}.

(** A row of the settings store as [Setting.ById] returns it. *)
Record Setting := {
  Setting_Resource : Resource;
  ActiveValue : string;
}.

End client.

(* ===================================================================== *)
(** ** Package [model]                                                    *)
(* ===================================================================== *)

Module model.

(** Modelled from the spec: [model.AuthConfig] is declared outside the
    files at hand.  Section 3 gives its fields; the provider-owned part is
    kept as an opaque map of fields. *)
Record AuthConfig := {
  AuthConfig_Resource : client.Resource;
  Provider : string;
  Enabled : bool;
  AccessMode : string;
  AllowedIdentities : list client.Identity;
  ProviderConfig : gmap string string;
}.

(** Modelled from the spec: [model.Token], the provider's answer to a code
    or token exchange; the fields are the ones [CreateToken] reads. *)
Record Token := {
  Type' : string;
  ExternalAccountID : string;
  AccessToken : string;
  IdentityList : list client.Identity;
}.

End model.

(* ===================================================================== *)
(** ** Package [providers]: the capability contract and the registry      *)
(* ===================================================================== *)

Module providers.

(** The [IdentityProvider] interface over the type [P] of provider
    objects.  A method that mutates its receiver returns the new object:
    [LoadConfig] yields the loaded provider or an error.  [GetProvider]
    is the registry: a name resolves to a fresh instance, or to [nil]. *)
Class IdentityProvider (P : Type) := {
  GetProvider : string → option P;
  LoadConfig : P → model.AuthConfig → error + P;
  GetSettings : P → gmap string string;
  GetProviderSettingList : P → list string;
  AddProviderConfig :
    P → model.AuthConfig → gmap string string → model.AuthConfig;
  GenerateToken : P → string → error + model.Token;
  RefreshToken : P → string → error + model.Token;
  GetIdentity : P → string → string → string → error + client.Identity;
  GetIdentities : P → string → error + list client.Identity;
  SearchIdentities :
    P → string → bool → string → error + list client.Identity;
}.

End providers.

(* ===================================================================== *)
(** ** Package [util]: the claims payload handed to the signer            *)
(* ===================================================================== *)

Module util.

(** The values stored in the [map[string]interface{}] payload. *)
Inductive PayloadValue :=
| PString (s : string)
| PStringList (l : list string)
| PIdentityList (l : list client.Identity).

(** [util.CreateTokenWithPayload(payload, privateKey)], with the key
    fixed: the signed token or an error. *)
Class Signer := {
  CreateTokenWithPayload : gmap string PayloadValue → error + string;
}.

End util.

(** Go leaves the iteration order of [range] over a map unspecified: a
    [MapRange] is one such order, any enumeration of the map's entries. *)
Class MapRange := {
  range : gmap string string → list (string * string);
  range_perm : ∀ m, range m ≡ₚ map_to_list m;
}.

(** Indexing a Go map: the zero value when the key is absent. *)
Definition index (m : gmap string string) (key : string) : string :=
  default "" (m !! key).

(* ===================================================================== *)
(** ** A state monad for code that reads and writes package variables     *)
(* ===================================================================== *)

Definition State (S A : Type) : Type := S → A * S.

Definition ret {S A} (a : A) : State S A := λ s, (a, s).

Definition bind {S A B} (m : State S A) (k : A → State S B) : State S B :=
  λ s, let '(a, s') := m s in k a s'.

Notation "x <- m ; k" := (bind m (λ x, k))
  (at level 20, m at level 100, k at level 200, only parsing).
Notation "' pat <- m ; k" := (bind m (λ x, match x with pat => k end))
  (at level 20, pat pattern, m at level 100, k at level 200, only parsing).

(* ===================================================================== *)
(** ** Package [server]                                                   *)
(* ===================================================================== *)

Module server.

Definition accessModeSetting := "api.auth.github.access.mode".
Definition allowedIdentitiesSetting := "api.auth.github.allowed.identities".
Definition providerSetting := "api.auth.provider.configured".
Definition providerNameSetting := "api.auth.provider.name.configured".
Definition securitySetting := "api.security.enabled".

(** The settings store behind [rancherClient.Setting]: the stored values
    and a fault schedule.  Every call to the store consumes the head of
    the schedule; [Some e] makes that call fail with [e]. *)
Record Store := {
  db : gmap string string;
  faults : list (option error);
}.

(** What leaves the process. *)
Inductive Event :=
| EvSettingById (key : string)
| EvSettingUpdate (key value : string)
| EvGenerateToken (securityCode : string)
| EvRefreshToken (accessToken : string)
| EvGetIdentity (externalID externalIDType accessToken : string)
| EvGetIdentities (accessToken : string)
| EvSearchIdentities (name : string) (exactMatch : bool) (accessToken : string)
| EvSign (payload : gmap string util.PayloadValue).

Section WithProvider.

Context {P : Type} `{!providers.IdentityProvider P}.
Context `{!util.Signer} `{!MapRange}.

(** The package-level variables, the store and the trace. *)
Record World := {
  provider : option P;
  authConfigInMemory : model.AuthConfig;
  rancherClient : Store;
  trace : list Event;
}.

Definition M (A : Type) : Type := State World A.

Definition emit (e : Event) : M unit :=
  λ w, (tt, {| provider := provider w;
               authConfigInMemory := authConfigInMemory w;
               rancherClient := rancherClient w;
               trace := trace w ++ [e] |}).

Definition set_store (s : Store) : M unit :=
  λ w, (tt, {| provider := provider w;
               authConfigInMemory := authConfigInMemory w;
               rancherClient := s;
               trace := trace w |}).

(** [provider = newProvider; authConfigInMemory = authConfig]. *)
Definition set_active (p : P) (c : model.AuthConfig) : M unit :=
  λ w, (tt, {| provider := Some p;
               authConfigInMemory := c;
               rancherClient := rancherClient w;
               trace := trace w |}).

Definition get_provider : M (option P) := λ w, (provider w, w).

Definition get_store : M Store := λ w, (rancherClient w, w).

(** One call to the store consumes the head of the fault schedule; an
    exhausted schedule means no further fault. *)
Definition store_call : M (option error) :=
  s <- get_store ;
  ' tt <- set_store {| db := db s; faults := tail (faults s) |} ;
  ret (default None (head (faults s))).

(** [rancherClient.Setting.ById(key)]. *)
Definition Setting_ById (key : string) : M (error + client.Setting) :=
  ' tt <- emit (EvSettingById key) ;
  f <- store_call ;
  match f with
  | Some err => ret (inl err)
  | None =>
      s <- get_store ;
      ret (inr {| client.Setting_Resource :=
                    {| client.Id := key; client.Type' := "setting" |};
                  client.ActiveValue := index (db s) key |})
  end.

(** [rancherClient.Setting.Update(setting, &client.Setting{Value: value})]. *)
Definition Setting_Update (setting : client.Setting) (value : string)
  : M (error + client.Setting) :=
  let key := client.Id (client.Setting_Resource setting) in
  ' tt <- emit (EvSettingUpdate key value) ;
  f <- store_call ;
  match f with
  | Some err => ret (inl err)
  | None =>
      s <- get_store ;
      ' tt <- set_store {| db := <[key := value]> (db s); faults := faults s |} ;
      ret (inr {| client.Setting_Resource := client.Setting_Resource setting;
                  client.ActiveValue := value |})
  end.

Definition initProviderWithConfig (authConfig : model.AuthConfig) : error + P :=
  match providers.GetProvider (model.Provider authConfig) with
  | None =>
      inl ("Could not get the " +:+ model.Provider authConfig +:+ " auth provider")
  | Some newProvider =>
      match providers.LoadConfig newProvider authConfig with
      | inl err => inl err
      | inr loaded => inr loaded
      end
  end.

Fixpoint readSettings_loop (settings : list string)
    (dbSettings : gmap string string) : M (gmap string string * option error) :=
  match settings with
  | [] => ret (dbSettings, None)
  | key :: rest =>
      r <- Setting_ById key ;
      match r with
      | inl err => ret (dbSettings, Some err)
      | inr setting =>
          readSettings_loop rest (<[key := client.ActiveValue setting]> dbSettings)
      end
  end.

Definition readSettings (settings : list string)
  : M (gmap string string * option error) :=
  readSettings_loop settings ∅.

Fixpoint updateSettings_loop (entries : list (string * string)) : M (option error) :=
  match entries with
  | [] => ret None
  | (key, value) :: rest =>
      if bool_decide (value ≠ "") then
        r <- Setting_ById key ;
        match r with
        | inl err => ret (Some err)
        | inr setting =>
            r' <- Setting_Update setting value ;
            match r' with
            | inl err => ret (Some err)
            | inr _ => updateSettings_loop rest
            end
        end
      else updateSettings_loop rest
  end.

Definition updateSettings (settings : gmap string string) : M (option error) :=
  updateSettings_loop (range settings).

Definition getAllowedIDString (allowedIdentities : list client.Identity) : M string :=
  p <- get_provider ;
  match p with
  | Some _ =>
      ret (strings.Join
             (map (λ idn, client.Id (client.Identity_Resource idn))
                  allowedIdentities) ",")
  | None => ret ""
  end.

(** The unresolved record built at the end of the loop body. *)
Definition stub (id part0 part1 : string) : client.Identity :=
  {| client.Identity_Resource := {| client.Id := id; client.Type' := "identity" |};
     client.ExternalId := part1;
     client.ExternalIdType := part0;
     client.Login := "";
     client.Name := "" |}.

Fixpoint getAllowedIdentities_loop (externalIDList : list string)
    (accessToken : string) (identities : list client.Identity)
  : M (list client.Identity) :=
  match externalIDList with
  | [] => ret identities
  | id :: rest =>
      match strings.SplitN id ":" 2 with
      | part0 :: part1 :: _ =>
          p <- get_provider ;
          match p with
          | Some prov =>
              if bool_decide (accessToken ≠ "") then
                ' tt <- emit (EvGetIdentity part1 part0 accessToken) ;
                match providers.GetIdentity prov part1 part0 accessToken with
                | inr idn =>
                    getAllowedIdentities_loop rest accessToken (identities ++ [idn])
                | inl _ =>
                    getAllowedIdentities_loop rest accessToken
                      (identities ++ [stub id part0 part1])
                end
              else
                getAllowedIdentities_loop rest accessToken
                  (identities ++ [stub id part0 part1])
          | None =>
              getAllowedIdentities_loop rest accessToken
                (identities ++ [stub id part0 part1])
          end
      | _ => getAllowedIdentities_loop rest accessToken identities
      end
  end.

Definition getAllowedIdentities (idString accessToken : string)
  : M (list client.Identity) :=
  if bool_decide (idString ≠ "") then
    getAllowedIdentities_loop (strings.Split idString ",") accessToken []
  else ret [].

(** The assignments of [UpdateConfig] that add the generic settings to
    the map the provider exported; [idString] is the serialized
    allow-list. *)
Definition addGenericSettings (authConfig : model.AuthConfig)
    (idString : string) (providerSettings : gmap string string)
  : gmap string string :=
  let providerSettings :=
    <[accessModeSetting := model.AccessMode authConfig]> providerSettings in
  let providerSettings :=
    <[allowedIdentitiesSetting := idString]> providerSettings in
  let providerSettings :=
    <[securitySetting := strconv.FormatBool (model.Enabled authConfig)]>
      providerSettings in
  let providerSettings :=
    <[providerNameSetting := model.Provider authConfig]> providerSettings in
  if model.Enabled authConfig
  then <[providerSetting := model.Provider authConfig]> providerSettings
  else providerSettings.

(** [UpdateConfig] updates the config in the store, then switches the
    in-memory provider. *)
Definition UpdateConfig (authConfig : model.AuthConfig) : M (option error) :=
  match initProviderWithConfig authConfig with
  | inl err => ret (Some err)
  | inr newProvider =>
      idString <- getAllowedIDString (model.AllowedIdentities authConfig) ;
      let providerSettings :=
        addGenericSettings authConfig idString
          (providers.GetSettings newProvider) in
      err <- updateSettings providerSettings ;
      match err with
      | Some e => ret (Some e)
      | None => ' tt <- set_active newProvider authConfig ; ret None
      end
  end.

(** [model.AuthConfig{Resource: client.Resource{Type: "config"}}]. *)
Definition config_zero : model.AuthConfig :=
  {| model.AuthConfig_Resource := {| client.Id := ""; client.Type' := "config" |};
     model.Provider := "";
     model.Enabled := false;
     model.AccessMode := "";
     model.AllowedIdentities := [];
     model.ProviderConfig := ∅ |}.

(** [GetConfig] gets the config from the store. *)
Definition GetConfig (accessToken : string) : M (model.AuthConfig * option error) :=
  let config := config_zero in
  let settings :=
    [accessModeSetting; allowedIdentitiesSetting; securitySetting;
     providerSetting; providerNameSetting] in
  ' (dbSettings, err) <- readSettings settings ;
  match err with
  | Some e => ret (config, Some e)
  | None =>
      allowed <- getAllowedIdentities
                   (index dbSettings allowedIdentitiesSetting) accessToken ;
      let '(enabled, perr) := strconv.ParseBool (index dbSettings securitySetting) in
      let providerNameInDb := index dbSettings providerNameSetting in
      let config :=
        {| model.AuthConfig_Resource := model.AuthConfig_Resource config;
           model.Provider := providerNameInDb;
           model.Enabled := match perr with None => enabled | Some _ => false end;
           model.AccessMode := index dbSettings accessModeSetting;
           model.AllowedIdentities := allowed;
           model.ProviderConfig := model.ProviderConfig config |} in
      match providers.GetProvider (model.Provider config) with
      | None =>
          ret (config,
               Some ("Could not get the " +:+ model.Provider config
                     +:+ " auth provider"))
      | Some newProvider =>
          ' (providerSettings, _) <-
            readSettings (providers.GetProviderSettingList newProvider) ;
          ret (providers.AddProviderConfig newProvider config providerSettings,
               None)
      end
  end.

(** [Reload] reloads the config from the store and reinitialises the
    provider. *)
Definition Reload : M (option error) :=
  ' (authConfig, _) <- GetConfig "" ;
  match initProviderWithConfig authConfig with
  | inl err => ret (Some err)
  | inr newProvider => ' tt <- set_active newProvider authConfig ; ret None
  end.

Definition identitiesToIDList (identities : list client.Identity) : list string :=
  fold_left
    (λ (idList : list string) idn,
       idList ++ [client.Id (client.Identity_Resource idn)])
    identities [].

(** The claims payload both token operations build. *)
Definition payload_of (token : model.Token) : gmap string util.PayloadValue :=
  let payload : gmap string util.PayloadValue := ∅ in
  let payload := <["token" := util.PString (model.Type' token)]> payload in
  let payload :=
    <["account_id" := util.PString (model.ExternalAccountID token)]> payload in
  let payload :=
    <["access_token" := util.PString (model.AccessToken token)]> payload in
  let payload :=
    <["idList" := util.PStringList (identitiesToIDList (model.IdentityList token))]>
      payload in
  <["identities" := util.PIdentityList (model.IdentityList token)]> payload.

Definition sign (payload : gmap string util.PayloadValue) : M (string * option error) :=
  ' tt <- emit (EvSign payload) ;
  match util.CreateTokenWithPayload payload with
  | inl err => ret ("", Some err)
  | inr signed => ret (signed, None)
  end.

(** [CreateToken] authenticates with the provider and creates a token. *)
Definition CreateToken (securityCode : string) : M (string * option error) :=
  p <- get_provider ;
  match p with
  | Some prov =>
      ' tt <- emit (EvGenerateToken securityCode) ;
      match providers.GenerateToken prov securityCode with
      | inl err => ret ("", Some err)
      | inr token => sign (payload_of token)
      end
  | None => ret ("", Some "No auth provider configured")
  end.

(** [RefreshToken] refreshes a token. *)
Definition RefreshToken (accessToken : string) : M (string * option error) :=
  p <- get_provider ;
  match p with
  | Some prov =>
      ' tt <- emit (EvRefreshToken accessToken) ;
      match providers.RefreshToken prov accessToken with
      | inl err => ret ("", Some err)
      | inr token => sign (payload_of token)
      end
  | None => ret ("", Some "No auth provider configured")
  end.

(** [GetIdentities] lists all identities for a token. *)
Definition GetIdentities (accessToken : string)
  : M (list client.Identity * option error) :=
  p <- get_provider ;
  match p with
  | Some prov =>
      ' tt <- emit (EvGetIdentities accessToken) ;
      match providers.GetIdentities prov accessToken with
      | inl err => ret ([], Some err)
      | inr l => ret (l, None)
      end
  | None => ret ([], Some "No auth provider configured")
  end.

(** [GetIdentity] looks one identity up by id and type. *)
Definition GetIdentity (externalID externalIDType accessToken : string)
  : M (client.Identity * option error) :=
  p <- get_provider ;
  match p with
  | Some prov =>
      ' tt <- emit (EvGetIdentity externalID externalIDType accessToken) ;
      match providers.GetIdentity prov externalID externalIDType accessToken with
      | inl err => ret (client.Identity_zero, Some err)
      | inr i => ret (i, None)
      end
  | None => ret (client.Identity_zero, Some "No auth provider configured")
  end.

(** [SearchIdentities] lists the identities matching a name. *)
Definition SearchIdentities (name : string) (exactMatch : bool)
    (accessToken : string) : M (list client.Identity * option error) :=
  p <- get_provider ;
  match p with
  | Some prov =>
      ' tt <- emit (EvSearchIdentities name exactMatch accessToken) ;
      match providers.SearchIdentities prov name exactMatch accessToken with
      | inl err => ret ([], Some err)
      | inr l => ret (l, None)
      end
  | None => ret ([], Some "No auth provider configured")
  end.

End WithProvider.
End server.

(* ===================================================================== *)
(** ** Package [service]: the HTTP handlers                               *)
(* ===================================================================== *)

Module service.

Definition StatusBadRequest : nat := 400.
Definition StatusUnauthorized : nat := 401.
Definition StatusInternalServerError : nat := 500.

(** What a handler writes to its [http.ResponseWriter], in order.
    [HTTPError] is a call [ReturnHTTPError(w, r, status, message)]. *)
Inductive Write :=
| HTTPError (status : nat) (message : string)
| EncodeToken (token : string)
| EncodeConfig (config : model.AuthConfig)
| WriteIdentity (idn : client.Identity)
| WriteIdentityCollection (data : list client.Identity).

Definition when (b : bool) (w : Write) : list Write := if b then [w] else [].

Section WithProvider.

Context {P : Type} `{!providers.IdentityProvider P}.
Context `{!util.Signer} `{!MapRange}.

(** Handler for route /token.  [t] is the decoded JSON body (the nil map
    when decoding failed). *)
Definition CreateToken (t : gmap string string) : server.M (list Write) :=
  let securityCode := index t "code" in
  let accessToken := index t "accessToken" in
  if bool_decide (securityCode ≠ "") then
    ' (token, err) <- server.CreateToken securityCode ;
    match err with
    | Some e =>
        ret [HTTPError StatusInternalServerError
               ("Error getting the token: " +:+ e)]
    | None => ret [EncodeToken token]
    end
  else if bool_decide (accessToken ≠ "") then
    ' (token, err) <- server.RefreshToken accessToken ;
    match err with
    | Some e =>
        ret [HTTPError StatusInternalServerError
               ("Error getting the token: " +:+ e)]
    | None => ret [EncodeToken token]
    end
  else
    ret [HTTPError StatusBadRequest
           "Bad Request, Please check the request content"].

(** Handler for route /me/identities. *)
Definition GetIdentities (authHeader : string) : server.M (list Write) :=
  if bool_decide (authHeader ≠ "") then
    let w1 :=
      when (negb (strings.HasPrefix authHeader "Bearer "))
        (HTTPError StatusUnauthorized
           "Unauthorized, please provide a valid token") in
    let accessToken := strings.TrimPrefix authHeader "Bearer " in
    ' (identities, err) <- server.GetIdentities accessToken ;
    match err with
    | None => ret (w1 ++ [WriteIdentityCollection identities])
    | Some _ =>
        ret (w1 ++ [HTTPError StatusUnauthorized
                      "Unauthorized, failed to get identities"])
    end
  else
    ret [HTTPError StatusUnauthorized
           "Unauthorized, please provide a valid token"].

(** Handler for route /identities; the three strings after the header
    are the query parameters. *)
Definition SearchIdentities (authHeader externalID externalIDType name : string)
  : server.M (list Write) :=
  if bool_decide (authHeader ≠ "") then
    let w1 :=
      when (negb (strings.HasPrefix authHeader "Bearer "))
        (HTTPError StatusUnauthorized
           "Unauthorized, please provide a valid token") in
    let accessToken := strings.TrimPrefix authHeader "Bearer " in
    if bool_decide (externalID ≠ "") && bool_decide (externalIDType ≠ "") then
      ' (idn, err) <- server.GetIdentity externalID externalIDType accessToken ;
      match err with
      | None => ret (w1 ++ [WriteIdentity idn])
      | Some _ =>
          ret (w1 ++ [HTTPError StatusInternalServerError "Internal Server Error"])
      end
    else if bool_decide (name ≠ "") then
      ' (identities, err) <- server.SearchIdentities name true accessToken ;
      match err with
      | None => ret (w1 ++ [WriteIdentityCollection identities])
      | Some _ =>
          ret (w1 ++ [HTTPError StatusInternalServerError "Internal Server Error"])
      end
    else
      ret (w1 ++ [HTTPError StatusBadRequest
                    "Bad Request, Please check the request content"])
  else
    ret [HTTPError StatusUnauthorized
           "Unauthorized, please provide a valid token"].

(** Handler for POST /authconfig.  [readErr] and [unmarshalErr] tell
    whether reading and decoding the body failed; [authConfig] is the
    variable the body was decoded into. *)
Definition UpdateConfig (readErr unmarshalErr : bool)
    (authConfig : model.AuthConfig) : server.M (list Write) :=
  let w1 :=
    when readErr
      (HTTPError StatusBadRequest
         "Bad Request, Please check the request content") in
  let w2 :=
    when unmarshalErr
      (HTTPError StatusBadRequest
         "Bad Request, Please check the request content") in
  let w3 :=
    when (bool_decide (model.Provider authConfig = ""))
      (HTTPError StatusBadRequest
         "Bad Request, Please check the request content, Provider is a required field") in
  err <- server.UpdateConfig authConfig ;
  let w4 :=
    when (bool_decide (err ≠ None))
      (HTTPError StatusBadRequest
         "Bad Request, Please check the request content") in
  ret (w1 ++ w2 ++ w3 ++ w4).

(** Handler for GET /authconfig. *)
Definition GetConfig (authHeader : string) : server.M (list Write) :=
  let w1 :=
    when (bool_decide (authHeader ≠ "")
          && negb (strings.HasPrefix authHeader "Bearer "))
      (HTTPError StatusUnauthorized
         "Unauthorized, please provide a valid token") in
  let accessToken :=
    if bool_decide (authHeader ≠ "")
    then strings.TrimPrefix authHeader "Bearer " else "" in
  ' (config, err) <- server.GetConfig accessToken ;
  match err with
  | None => ret (w1 ++ [EncodeConfig config])
  | Some _ =>
      ret (w1 ++ [HTTPError StatusInternalServerError
                    "Failed to get the auth config"])
  end.

(** Handler for POST /reloadconfig. *)
Definition Reload : server.M (list Write) :=
  err <- server.Reload ;
  ret (when (bool_decide (err ≠ None))
         (HTTPError StatusInternalServerError
            "Failed to reload the auth config")).

End WithProvider.
End service.

(* ===================================================================== *)
(** ** A sample deployment: one provider, a signer, an iteration order    *)
(* ===================================================================== *)

Module sample.

Definition clientIDSetting := "api.auth.github.client.id".
Definition clientSecretSetting := "api.auth.github.client.secret".

(** A provider object: the two fields it absorbs from a config. *)
Record Github := {
  clientID : string;
  clientSecret : string;
}.

Definition resolved (externalID externalIDType : string) : client.Identity :=
  {| client.Identity_Resource :=
       {| client.Id := externalIDType +:+ ":" +:+ externalID;
          client.Type' := "identity" |};
     client.ExternalId := externalID;
     client.ExternalIdType := externalIDType;
     client.Login := externalID;
     client.Name := "resolved" |}.

Definition token_for (accessToken : string) : model.Token :=
  {| model.Type' := "github";
     model.ExternalAccountID := "42";
     model.AccessToken := accessToken;
     model.IdentityList := [resolved "42" "github_user"; resolved "7" "github_org"] |}.

#[export] Instance github : providers.IdentityProvider Github := {|
  providers.GetProvider name :=
    if bool_decide (name = "githubconfig")
    then Some {| clientID := ""; clientSecret := "" |} else None;
  providers.LoadConfig _ authConfig :=
    match model.ProviderConfig authConfig !! "clientId" with
    | Some cid =>
        inr {| clientID := cid;
               clientSecret := index (model.ProviderConfig authConfig) "clientSecret" |}
    | None => inl "github: clientId is required"
    end;
  providers.GetSettings p :=
    {[ clientIDSetting := clientID p; clientSecretSetting := clientSecret p ]};
  providers.GetProviderSettingList _ := [clientIDSetting; clientSecretSetting];
  providers.AddProviderConfig _ config settings :=
    {| model.AuthConfig_Resource := model.AuthConfig_Resource config;
       model.Provider := model.Provider config;
       model.Enabled := model.Enabled config;
       model.AccessMode := model.AccessMode config;
       model.AllowedIdentities := model.AllowedIdentities config;
       model.ProviderConfig :=
         {[ "clientId" := index settings clientIDSetting;
            "clientSecret" := index settings clientSecretSetting ]} |};
  providers.GenerateToken _ code :=
    if bool_decide (code = "good-code") then inr (token_for "t0")
    else inl "github: bad verification code";
  providers.RefreshToken _ accessToken :=
    if bool_decide (accessToken = "t0") then inr (token_for "t0")
    else inl "github: bad credentials";
  providers.GetIdentity _ externalID externalIDType accessToken :=
    if bool_decide (accessToken = "t0") then inr (resolved externalID externalIDType)
    else inl "github: bad credentials";
  providers.GetIdentities _ accessToken :=
    if bool_decide (accessToken = "t0")
    then inr (model.IdentityList (token_for "t0"))
    else inl "github: bad credentials";
  providers.SearchIdentities _ name _ accessToken :=
    if bool_decide (accessToken = "t0") then inr [resolved name "github_user"]
    else inl "github: bad credentials";
|}.

#[export] Instance signer : util.Signer := {|
  util.CreateTokenWithPayload _ := inr "signed.jwt";
|}.

#[export] Instance in_key_order : MapRange := {|
  range := map_to_list;
  range_perm m := reflexivity (map_to_list m);
|}.

Definition config (enabled : bool) (accessMode : string)
    (allowed : list client.Identity) : model.AuthConfig :=
  {| model.AuthConfig_Resource := client.Resource_zero;
     model.Provider := "githubconfig";
     model.Enabled := enabled;
     model.AccessMode := accessMode;
     model.AllowedIdentities := allowed;
     model.ProviderConfig := {[ "clientId" := "id0"; "clientSecret" := "s3cret" ]} |}.

(** A world with the given active provider, store contents and faults. *)
Definition world (p : option Github) (contents : gmap string string)
    (fs : list (option error)) : server.World :=
  {| server.provider := p;
     server.authConfigInMemory := server.config_zero;
     server.rancherClient := {| server.db := contents; server.faults := fs |};
     server.trace := [] |}.

Definition loaded : Github := {| clientID := "id0"; clientSecret := "s3cret" |}.

(** A submitted config that names no provider. *)
Definition unnamed : model.AuthConfig :=
  {| model.AuthConfig_Resource := client.Resource_zero;
     model.Provider := "";
     model.Enabled := true;
     model.AccessMode := "unrestricted";
     model.AllowedIdentities := [];
     model.ProviderConfig := ∅ |}.

(** Store contents left by an earlier, enabled configuration. *)
Definition earlier : gmap string string :=
  {[ server.providerSetting := "githubconfig";
     server.providerNameSetting := "githubconfig";
     server.securitySetting := "true";
     server.accessModeSetting := "restricted";
     server.allowedIdentitiesSetting := "github_user:1,github_org:2" ]}.


End sample.

(* ===================================================================== *)
(** * Verification                                                        *)
(* ===================================================================== *)

(** ** Splitting and joining *)

Section StringFacts.

Import strings.

Lemma append_cons (c : ascii) (s t : string) :
  String c s +:+ t = String c (s +:+ t).
Proof. reflexivity. Qed.

Lemma Split_free (sep : ascii) (s : string) :
  free_of sep s = true → Split s sep = [s].
Proof.
  induction s as [|c s IH]; simpl; [done|].
  intros [Hc Hs]%andb_prop. apply negb_true_iff in Hc.
  rewrite Hc, (IH Hs). done.
Qed.

Lemma Split_app_sep (sep : ascii) (a b : string) :
  free_of sep a = true →
  Split (a +:+ String sep b) sep = a :: Split b sep.
Proof.
  induction a as [|c a IH]; simpl.
  - intros _. by rewrite Ascii.eqb_refl.
  - intros [Hc Ha]%andb_prop. apply negb_true_iff in Hc.
    rewrite Hc, (IH Ha). done.
Qed.

Lemma Split_Join (sep : ascii) (elems : list string) :
  Forall (λ e, free_of sep e = true) elems →
  elems ≠ [] →
  Split (Join elems (String sep "")) sep = elems.
Proof.
  induction 1 as [|e rest He Hrest IH]; [done|]. intros _.
  destruct rest as [|e' rest'].
  - simpl. by apply Split_free.
  - change (Join (e :: e' :: rest') (String sep ""))
      with (e +:+ String sep (Join (e' :: rest') (String sep ""))).
    rewrite Split_app_sep by done. f_equal. by apply IH.
Qed.


Lemma Cut_app_sep (sep : ascii) (a b : string) :
  free_of sep a = true → Cut (a +:+ String sep b) sep = Some (a, b).
Proof.
  induction a as [|c a IH]; simpl.
  - intros _. by rewrite Ascii.eqb_refl.
  - intros [Hc Ha]%andb_prop. apply negb_true_iff in Hc.
    by rewrite Hc, (IH Ha).
Qed.


Lemma SplitN_2_app_sep (sep : ascii) (a b : string) :
  free_of sep a = true → SplitN (a +:+ String sep b) sep 2 = [a; b].
Proof. intros H. simpl. by rewrite Cut_app_sep. Qed.

Lemma free_of_app (sep : ascii) (a b : string) :
  free_of sep (a +:+ b) = free_of sep a && free_of sep b.
Proof. induction a as [|c a IH]; simpl; [done|]. by rewrite IH, andb_assoc. Qed.

Lemma Join_nil_iff (elems : list string) (sep : ascii) :
  Join elems (String sep "") = "" → elems = [] ∨ elems = [""].
Proof.
  destruct elems as [|e [|e' rest]]; simpl; [by left| |].
  - intros ->. by right.
  - destruct e; simpl; discriminate.
Qed.

End StringFacts.

(** ** The server *)

Section Verification.

Context {P : Type} {provider_ops : providers.IdentityProvider P}.
Context {signer : util.Signer} {map_range : MapRange}.

Import server.

Implicit Types (w : World (P := P)) (authConfig : model.AuthConfig).

(** The id of an identity record, [identity.Resource.Id]. *)
Definition id_of (idn : client.Identity) : string :=
  client.Id (client.Identity_Resource idn).

Lemma identitiesToIDList_acc (identities : list client.Identity)
    (acc : list string) :
  fold_left (λ (idList : list string) idn, idList ++ [id_of idn]) identities acc
  = acc ++ map id_of identities.
Proof.
  revert acc. induction identities as [|i l IH]; intros acc; simpl.
  - by rewrite app_nil_r.
  - by rewrite IH, <- app_assoc.
Qed.

Lemma identitiesToIDList_map (identities : list client.Identity) :
  identitiesToIDList identities = map id_of identities.
Proof. apply identitiesToIDList_acc. Qed.

(** A payload whose id list is the list of ids of its identity records. *)
Definition consistent (payload : gmap string util.PayloadValue) : Prop :=
  ∃ identities,
    payload !! "identities" = Some (util.PIdentityList identities) ∧
    payload !! "idList" = Some (util.PStringList (map id_of identities)).

Lemma payload_of_consistent (token : model.Token) : consistent (payload_of token).
Proof.
  exists (model.IdentityList token). unfold payload_of. split.
  - by rewrite lookup_insert_eq.
  - rewrite lookup_insert_ne by done. rewrite lookup_insert_eq.
    by rewrite identitiesToIDList_map.
Qed.

Lemma sign_trace payload w :
  trace (sign payload w).2 = trace w ++ [EvSign payload].
Proof.
  unfold sign, bind, emit, ret. simpl.
  by destruct (util.CreateTokenWithPayload payload).
Qed.

Lemma CreateToken_signs securityCode w payload :
  EvSign payload ∈ trace (CreateToken securityCode w).2 →
  EvSign payload ∈ trace w ∨ ∃ token, payload = payload_of token.
Proof.
  unfold CreateToken, bind, get_provider, emit, ret. simpl.
  destruct (provider w) as [prov|]; simpl; [|by left].
  destruct (providers.GenerateToken prov securityCode) as [e|token]; simpl.
  - rewrite elem_of_app, list_elem_of_singleton. intros [?|?]; [by left|done].
  - rewrite sign_trace. simpl.
    rewrite !elem_of_app, !list_elem_of_singleton.
    intros [[?|?]|?]; [by left|done|]. right. exists token. congruence.
Qed.

Lemma RefreshToken_signs accessToken w payload :
  EvSign payload ∈ trace (RefreshToken accessToken w).2 →
  EvSign payload ∈ trace w ∨ ∃ token, payload = payload_of token.
Proof.
  unfold RefreshToken, bind, get_provider, emit, ret. simpl.
  destruct (provider w) as [prov|]; simpl; [|by left].
  destruct (providers.RefreshToken prov accessToken) as [e|token]; simpl.
  - rewrite elem_of_app, list_elem_of_singleton. intros [?|?]; [by left|done].
  - rewrite sign_trace. simpl.
    rewrite !elem_of_app, !list_elem_of_singleton.
    intros [[?|?]|?]; [by left|done|]. right. exists token. congruence.
Qed.

(** C5.  With no active provider, [CreateToken] and [RefreshToken] return
    the error "No auth provider configured" and an empty token for every
    input, and leave the world as it was: nothing is added to the trace,
    so no provider operation ran and nothing was signed. *)
Theorem C5_token_needs_provider w (input : string) :
  provider w = None →
  CreateToken input w = (("", Some "No auth provider configured"), w) ∧
  RefreshToken input w = (("", Some "No auth provider configured"), w).
Proof.
  intros Hp. unfold CreateToken, RefreshToken, bind, get_provider, ret.
  by rewrite Hp.
Qed.

(** C6.  Every payload that [CreateToken] or [RefreshToken] hands to the
    signer has, under "idList", exactly the ids of the records under
    "identities", in the same order (hence of the same length). *)
Theorem C6_idList_derived_from_identities w (input : string)
    (payload : gmap string util.PayloadValue) :
  EvSign payload ∈ trace (CreateToken input w).2 ∨
  EvSign payload ∈ trace (RefreshToken input w).2 →
  EvSign payload ∈ trace w ∨ consistent payload.
Proof.
  intros [Hs|Hs]; [apply CreateToken_signs in Hs|apply RefreshToken_signs in Hs];
    (destruct Hs as [?|[token ->]]; [by left|right; apply payload_of_consistent]).
Qed.

(** *** One call to the store *)

(** The next fault of a schedule. *)
Definition next_fault (fs : list (option error)) : option error :=
  default None (head fs).

(** The world after a store call that left the contents [contents] and
    logged [evs]. *)
Definition after w (contents : gmap string string) (n : nat) (evs : list Event)
  : World (P := P) :=
  {| provider := provider w;
     authConfigInMemory := authConfigInMemory w;
     rancherClient := {| db := contents; faults := drop n (faults (rancherClient w)) |};
     trace := trace w ++ evs |}.

Lemma drop_tail {A} (l : list A) (n : nat) : tail (drop n l) = drop (S n) l.
Proof.
  revert n. induction l as [|x l IH]; intros [|n]; simpl; by try apply IH.
Qed.

Lemma Setting_ById_eq key w :
  Setting_ById key w =
    (match next_fault (faults (rancherClient w)) with
     | Some e => inl e
     | None => inr {| client.Setting_Resource :=
                        {| client.Id := key; client.Type' := "setting" |};
                      client.ActiveValue := index (db (rancherClient w)) key |}
     end,
     after w (db (rancherClient w)) 1 [EvSettingById key]).
Proof.
  unfold Setting_ById, store_call, bind, ret, emit, get_store, set_store, after,
    next_fault. simpl.
  rewrite <- (drop_tail _ 0), drop_0.
  by destruct (default None (head (faults (rancherClient w)))).
Qed.

Lemma Setting_Update_eq setting value w :
  let key := client.Id (client.Setting_Resource setting) in
  Setting_Update setting value w =
    match next_fault (faults (rancherClient w)) with
    | Some e => (inl e, after w (db (rancherClient w)) 1 [EvSettingUpdate key value])
    | None =>
        (inr {| client.Setting_Resource := client.Setting_Resource setting;
                client.ActiveValue := value |},
         after w (<[key := value]> (db (rancherClient w))) 1
           [EvSettingUpdate key value])
    end.
Proof.
  unfold Setting_Update, store_call, bind, ret, emit, get_store, set_store, after,
    next_fault. simpl.
  rewrite <- (drop_tail _ 0), drop_0.
  by destruct (default None (head (faults (rancherClient w)))).
Qed.

Lemma after_after w c1 n1 evs1 c2 n2 evs2 :
  after (after w c1 n1 evs1) c2 n2 evs2 = after w c2 (n1 + n2) (evs1 ++ evs2).
Proof.
  unfold after. simpl. rewrite drop_drop. by rewrite <- app_assoc.
Qed.

Lemma next_fault_drop (fs : list (option error)) (n : nat) :
  next_fault (drop n fs) = default None (fs !! n).
Proof.
  unfold next_fault. revert n. induction fs as [|f fs IH]; intros [|n]; simpl; by try apply IH.
Qed.

Lemma after_0 w : after w (db (rancherClient w)) 0 [] = w.
Proof. destruct w as [p c [d f] t]. unfold after. simpl. by rewrite app_nil_r. Qed.

(** *** The settings-update loop *)

(** No store call among the first [n] meets a fault. *)
Definition quiet (fs : list (option error)) (n : nat) : Prop :=
  ∀ i, i < n → default None (fs !! i) = None.

(** The store call number [m] (from 0) is the first to fail, with [e]. *)
Definition first_fault (fs : list (option error)) (m : nat) (e : error) : Prop :=
  fs !! m = Some (Some e) ∧ quiet fs m.

(** An event of the round trip the loop makes for an entry with a non-empty
    value. *)
Definition written (entries : list (string * string)) (ev : Event) : Prop :=
  ∃ key value, (key, value) ∈ entries ∧ value ≠ "" ∧
    (ev = EvSettingById key ∨ ev = EvSettingUpdate key value).

Lemma written_mono entries entries' ev :
  entries ⊆ entries' → written entries ev → written entries' ev.
Proof. intros Hsub (k & v & Hin & Hv & Hev). exists k, v. split; [by apply Hsub|done]. Qed.

Lemma quiet_shift fs m n :
  quiet fs m → quiet (drop m fs) n → quiet fs (m + n).
Proof.
  intros H1 H2 i Hi. destruct (decide (i < m)) as [Hlt|Hge]; [by apply H1|].
  specialize (H2 (i - m)). rewrite lookup_drop in H2.
  replace (m + (i - m)) with i in H2 by lia. apply H2. lia.
Qed.

Lemma first_fault_shift fs m n e :
  quiet fs m → first_fault (drop m fs) n e → first_fault fs (m + n) e.
Proof.
  intros H1 [H2 H3]. split.
  - by rewrite lookup_drop in H2.
  - by apply quiet_shift.
Qed.

Lemma quiet_2 fs :
  next_fault fs = None → next_fault (drop 1 fs) = None → quiet fs 2.
Proof.
  rewrite <- (drop_0 fs) at 1. rewrite !next_fault_drop.
  intros H0 H1 [|[|i]] Hi; [done|done|lia].
Qed.

Lemma next_fault_Some fs e : next_fault fs = Some e → fs !! 0 = Some (Some e).
Proof. destruct fs as [|[e'|] fs]; simpl; unfold next_fault; simpl; congruence. Qed.

Lemma updateSettings_loop_spec (entries : list (string * string)) w :
  ∃ r contents n evs,
    updateSettings_loop entries w = (r, after w contents n evs) ∧
    Forall (written entries) evs ∧
    (∀ key, (∀ value, (key, value) ∈ entries → value = "") →
            contents !! key = db (rancherClient w) !! key) ∧
    match r with
    | Some e => ∃ m, n = S m ∧ first_fault (faults (rancherClient w)) m e
    | None =>
        quiet (faults (rancherClient w)) n ∧
        (NoDup entries.*1 →
         ∀ key value, (key, value) ∈ entries → value ≠ "" →
                      contents !! key = Some value)
    end.
Proof.
  revert w. induction entries as [|[k v] rest IH]; intros w.
  { exists None, (db (rancherClient w)), 0, []. simpl. rewrite after_0.
    repeat split; try done.
    - intros i Hi. lia.
    - intros _ key value Hin. by apply elem_of_nil in Hin. }
  simpl. case_bool_decide as Hv.
  2:{ subst v.
      destruct (IH w) as (r & c & n & evs & Heq & Hevs & Hframe & Hr).
      exists r, c, n, evs. split; [done|]. split; [|split].
      - eapply Forall_impl; [exact Hevs|]. intros ev. apply written_mono. set_solver.
      - intros key Hkey. apply Hframe. intros value Hin. apply Hkey. set_solver.
      - destruct r as [e|]; [done|]. destruct Hr as [Hq Hok]. split; [done|].
        intros Hnd key value Hin Hne. apply Hok; [by inversion Hnd| |done].
        apply elem_of_cons in Hin as [Heq'|Hin]; [|done]. congruence. }
  unfold bind at 1. rewrite Setting_ById_eq.
  destruct (next_fault (faults (rancherClient w))) as [e|] eqn:Hf0.
  { exists (Some e), (db (rancherClient w)), 1, [EvSettingById k].
    split; [done|]. split; [|split].
    - constructor; [|done]. exists k, v. set_solver.
    - done.
    - exists 0. split; [done|]. split; [by apply next_fault_Some|]. intros i Hi. lia. }
  unfold bind at 1. rewrite Setting_Update_eq. simpl.
  destruct (next_fault (drop 1 (faults (rancherClient w)))) as [e|] eqn:Hf1.
  { exists (Some e), (db (rancherClient w)), 2, [EvSettingById k; EvSettingUpdate k v].
    rewrite after_after. split; [done|]. split; [|split].
    - repeat constructor; exists k, v; set_solver.
    - done.
    - exists 1. split; [done|]. split.
      + apply next_fault_Some in Hf1. by rewrite lookup_drop in Hf1.
      + intros [|i] Hi; [|lia]. rewrite <- (drop_0 (faults _)) in Hf0.
        by rewrite next_fault_drop in Hf0. }
  rewrite after_after. simpl.
  set (w2 := after w _ 2 _).
  destruct (IH w2) as (r & c & n & evs & Heq & Hevs & Hframe & Hr).
  exists r, c, (2 + n), ([EvSettingById k; EvSettingUpdate k v] ++ evs).
  rewrite Heq. unfold w2. rewrite after_after. split; [done|].
  assert (Hq2 : quiet (faults (rancherClient w)) 2) by by apply quiet_2.
  split; [|split].
  - apply Forall_app. split.
    + repeat constructor; exists k, v; set_solver.
    + eapply Forall_impl; [exact Hevs|]. intros ev. apply written_mono. set_solver.
  - intros key Hkey. rewrite Hframe.
    + simpl. apply lookup_insert_ne. intros ->. apply Hv. apply Hkey. set_solver.
    + intros value Hin. apply Hkey. set_solver.
  - destruct r as [e|].
    + destruct Hr as (m & -> & Hff). exists (2 + m). split; [done|].
      by apply first_fault_shift.
    + destruct Hr as [Hq Hok]. split; [by apply quiet_shift|].
      intros Hnd key value Hin Hne. inversion Hnd as [|? ? Hnotin Hnd']; subst.
      apply elem_of_cons in Hin as [Heq'|Hin].
      * injection Heq' as -> ->. rewrite Hframe; [simpl; apply lookup_insert_eq|].
        intros value Hin. exfalso. apply Hnotin.
        apply list_elem_of_fmap. by exists (k, value).
      * by apply Hok.
Qed.

(** *** The settings map [UpdateConfig] writes *)

(** Two different key constants. *)
Ltac keys_ne := apply (bool_decide_unpack _); vm_compute; exact I.


Lemma addGenericSettings_allowedIdentities authConfig idString providerSettings :
  addGenericSettings authConfig idString providerSettings !! allowedIdentitiesSetting
  = Some idString.
Proof.
  unfold addGenericSettings. destruct (model.Enabled authConfig);
    repeat (rewrite lookup_insert_ne by keys_ne); apply lookup_insert_eq.
Qed.

Lemma addGenericSettings_security authConfig idString providerSettings :
  addGenericSettings authConfig idString providerSettings !! securitySetting
  = Some (strconv.FormatBool (model.Enabled authConfig)).
Proof.
  unfold addGenericSettings. destruct (model.Enabled authConfig);
    repeat (rewrite lookup_insert_ne by keys_ne); apply lookup_insert_eq.
Qed.

Lemma addGenericSettings_providerName authConfig idString providerSettings :
  addGenericSettings authConfig idString providerSettings !! providerNameSetting
  = Some (model.Provider authConfig).
Proof.
  unfold addGenericSettings. destruct (model.Enabled authConfig);
    repeat (rewrite lookup_insert_ne by keys_ne); apply lookup_insert_eq.
Qed.

Lemma addGenericSettings_provider authConfig idString providerSettings :
  addGenericSettings authConfig idString providerSettings !! providerSetting
  = if model.Enabled authConfig then Some (model.Provider authConfig)
    else providerSettings !! providerSetting.
Proof.
  unfold addGenericSettings. destruct (model.Enabled authConfig).
  - apply lookup_insert_eq.
  - by repeat (rewrite lookup_insert_ne by keys_ne).
Qed.

Lemma addGenericSettings_other authConfig idString providerSettings key :
  key ∉ [accessModeSetting; allowedIdentitiesSetting; securitySetting;
         providerNameSetting; providerSetting] →
  addGenericSettings authConfig idString providerSettings !! key
  = providerSettings !! key.
Proof.
  intros Hkey. unfold addGenericSettings.
  destruct (model.Enabled authConfig);
    repeat (rewrite lookup_insert_ne by (intros <-; apply Hkey; set_solver)); done.
Qed.

(** *** [range] enumerates the map *)

Lemma elem_of_range (m : gmap string string) key value :
  (key, value) ∈ range m ↔ m !! key = Some value.
Proof. rewrite (range_perm m). apply elem_of_map_to_list. Qed.

Lemma NoDup_fst_range (m : gmap string string) : NoDup (range m).*1.
Proof. rewrite (range_perm m). apply NoDup_fst_map_to_list. Qed.

(** An event of the round trip for a non-empty value of the map. *)
Definition writes_of (settings : gmap string string) (ev : Event) : Prop :=
  ∃ key value, settings !! key = Some value ∧ value ≠ "" ∧
    (ev = EvSettingById key ∨ ev = EvSettingUpdate key value).

Lemma updateSettings_spec (settings : gmap string string) w :
  ∃ r contents n evs,
    updateSettings settings w = (r, after w contents n evs) ∧
    Forall (writes_of settings) evs ∧
    (∀ key, settings !! key = None ∨ settings !! key = Some "" →
            contents !! key = db (rancherClient w) !! key) ∧
    match r with
    | Some e => ∃ m, n = S m ∧ first_fault (faults (rancherClient w)) m e
    | None =>
        quiet (faults (rancherClient w)) n ∧
        ∀ key value, settings !! key = Some value → value ≠ "" →
                     contents !! key = Some value
    end.
Proof.
  unfold updateSettings.
  destruct (updateSettings_loop_spec (range settings) w)
    as (r & c & n & evs & Heq & Hevs & Hframe & Hr).
  exists r, c, n, evs. split; [done|]. split; [|split].
  - eapply Forall_impl; [exact Hevs|]. intros ev (k & v & Hin & Hv & Hev).
    exists k, v. by rewrite <- elem_of_range.
  - intros key Hkey. apply Hframe. intros value Hin%elem_of_range.
    destruct Hkey as [Hk|Hk]; congruence.
  - destruct r as [e|]; [done|]. destruct Hr as [Hq Hok]. split; [done|].
    intros key value Hin Hne. apply Hok; [apply NoDup_fst_range| |done].
    by apply elem_of_range.
Qed.

(** *** [UpdateConfig] *)

Lemma getAllowedIDString_eq (allowedIdentities : list client.Identity) w :
  getAllowedIDString allowedIdentities w =
    (match provider w with
     | Some _ => strings.Join (map id_of allowedIdentities) ","
     | None => ""
     end, w).
Proof.
  unfold getAllowedIDString, bind, get_provider, ret.
  by destruct (provider w).
Qed.

(** The map [UpdateConfig] hands to [updateSettings]. *)
Definition settings_of w authConfig (newProvider : P) : gmap string string :=
  addGenericSettings authConfig
    (getAllowedIDString (model.AllowedIdentities authConfig) w).1
    (providers.GetSettings newProvider).

(** The world after the final two assignments of [UpdateConfig]. *)
Definition activated (newProvider : P) authConfig w : World (P := P) :=
  (set_active newProvider authConfig w).2.

Lemma UpdateConfig_eq authConfig w :
  UpdateConfig authConfig w =
    match initProviderWithConfig authConfig with
    | inl err => (Some err, w)
    | inr newProvider =>
        match updateSettings (settings_of w authConfig newProvider) w with
        | (Some e, w') => (Some e, w')
        | (None, w') => (None, activated newProvider authConfig w')
        end
    end.
Proof.
  unfold UpdateConfig, settings_of.
  destruct (initProviderWithConfig authConfig) as [err|newProvider]; [done|].
  unfold bind at 1. rewrite getAllowedIDString_eq. simpl.
  unfold bind at 1.
  destruct (updateSettings _ w) as [[e|] w']; done.
Qed.

(** C3.  When the registry does not resolve the empty name, [UpdateConfig]
    on a config with an empty provider returns an error and the world is
    exactly what it was: same active provider, same in-memory config, same
    store, and no store call in the trace.  The handler answers with status
    400 only, among them the message that the provider is required. *)
Theorem C3_empty_provider_is_rejected authConfig w (readErr unmarshalErr : bool) :
  providers.GetProvider (P := P) "" = None →
  model.Provider authConfig = "" →
  UpdateConfig authConfig w = (Some "Could not get the  auth provider", w) ∧
  ∃ writes,
    service.UpdateConfig readErr unmarshalErr authConfig w = (writes, w) ∧
    (service.HTTPError service.StatusBadRequest
       "Bad Request, Please check the request content, Provider is a required field"
       ∈ writes) ∧
    Forall (λ x, ∃ message, x = service.HTTPError 400 message) writes.
Proof.
  intros Hreg Hempty.
  assert (Hu : UpdateConfig authConfig w = (Some "Could not get the  auth provider", w)).
  { rewrite UpdateConfig_eq. unfold initProviderWithConfig.
    by rewrite Hempty, Hreg. }
  split; [done|].
  unfold service.UpdateConfig, bind. rewrite Hu. unfold ret.
  eexists. split; [done|]. rewrite Hempty. simpl. split.
  - set_solver.
  - destruct readErr, unmarshalErr; simpl; repeat constructor; by eexists.
Qed.

Lemma updateSettings_skips (settings : gmap string string) (key : string) w :
  settings !! key = None ∨ settings !! key = Some "" →
  ∃ r w' evs,
    updateSettings settings w = (r, w') ∧
    db (rancherClient w') !! key = db (rancherClient w) !! key ∧
    trace w' = trace w ++ evs ∧
    (EvSettingById key ∉ evs) ∧
    ∀ value, EvSettingUpdate key value ∉ evs.
Proof.
  intros Hkey.
  destruct (updateSettings_spec settings w)
    as (r & c & n & evs & Heq & Hevs & Hframe & _).
  exists r, (after w c n evs), evs. split; [done|]. split; [|split; [done|]].
  - simpl. by apply Hframe.
  - rewrite Forall_forall in Hevs. split.
    + intros (k & v & Hk & Hv & [Hev|Hev])%Hevs; [|done].
      injection Hev as <-. destruct Hkey; congruence.
    + intros value (k & v & Hk & Hv & [Hev|Hev])%Hevs; [done|].
      injection Hev as <- <-. destruct Hkey; congruence.
Qed.

(** C9.  A key whose value in the map is the empty string is skipped by
    [updateSettings]: its stored value is what it was, and the calls the
    loop adds to the trace contain neither a read nor an update of it. *)
Theorem C9_empty_value_is_never_written (settings : gmap string string)
    (key : string) w :
  settings !! key = Some "" →
  ∃ r w' evs,
    updateSettings settings w = (r, w') ∧
    db (rancherClient w') !! key = db (rancherClient w) !! key ∧
    trace w' = trace w ++ evs ∧
    (EvSettingById key ∉ evs) ∧
    ∀ value, EvSettingUpdate key value ∉ evs.
Proof. intros Hkey. apply updateSettings_skips. by right. Qed.

(** C10.  While no provider is active the allow-list serializes to the
    empty string whatever the submitted identities are, and [UpdateConfig]
    then neither changes the stored allow-list nor sends an update for its
    key. *)
Theorem C10_allow_list_needs_active_provider authConfig w :
  provider w = None →
  getAllowedIDString (model.AllowedIdentities authConfig) w = ("", w) ∧
  ∃ r w' evs,
    UpdateConfig authConfig w = (r, w') ∧
    db (rancherClient w') !! allowedIdentitiesSetting
      = db (rancherClient w) !! allowedIdentitiesSetting ∧
    trace w' = trace w ++ evs ∧
    ∀ value, EvSettingUpdate allowedIdentitiesSetting value ∉ evs.
Proof.
  intros Hnil.
  assert (Hs : getAllowedIDString (model.AllowedIdentities authConfig) w = ("", w)).
  { by rewrite getAllowedIDString_eq, Hnil. }
  split; [done|].
  rewrite UpdateConfig_eq.
  destruct (initProviderWithConfig authConfig) as [err|newProvider].
  { exists (Some err), w, []. rewrite app_nil_r. repeat split; try done.
    intros value Hin. by apply elem_of_nil in Hin. }
  assert (Hkey : settings_of w authConfig newProvider !! allowedIdentitiesSetting
                 = Some "").
  { unfold settings_of. rewrite Hs. apply addGenericSettings_allowedIdentities. }
  destruct (updateSettings_skips _ _ w (or_intror Hkey))
    as (r & w' & evs & Heq & Hdb & Htr & _ & Hup).
  rewrite Heq. destruct r as [e|].
  - by exists (Some e), w', evs.
  - by exists None, (activated newProvider authConfig w'), evs.
Qed.

(** C7.  For a provider that does not export the "configured provider" key
    among its own settings, [UpdateConfig] with [enabled = false] leaves the
    stored value of that key as it was and sends neither a read nor an
    update for it: the key is written only when [enabled = true]. *)
Theorem C7_disabling_keeps_configured_provider authConfig w :
  model.Enabled authConfig = false →
  (∀ newProvider : P,
     initProviderWithConfig authConfig = inr newProvider →
     providers.GetSettings newProvider !! providerSetting = None) →
  ∃ r w' evs,
    UpdateConfig authConfig w = (r, w') ∧
    db (rancherClient w') !! providerSetting
      = db (rancherClient w) !! providerSetting ∧
    trace w' = trace w ++ evs ∧
    (EvSettingById providerSetting ∉ evs) ∧
    ∀ value, EvSettingUpdate providerSetting value ∉ evs.
Proof.
  intros Hoff Hexp. rewrite UpdateConfig_eq.
  destruct (initProviderWithConfig authConfig) as [err|newProvider] eqn:Hinit.
  { exists (Some err), w, []. rewrite app_nil_r. repeat split; try done.
    - intros Hin. by apply elem_of_nil in Hin.
    - intros value Hin. by apply elem_of_nil in Hin. }
  assert (Hkey : settings_of w authConfig newProvider !! providerSetting = None).
  { unfold settings_of. rewrite addGenericSettings_provider, Hoff. by apply Hexp. }
  destruct (updateSettings_skips _ _ w (or_introl Hkey))
    as (r & w' & evs & Heq & Hdb & Htr & Hrd & Hup).
  rewrite Heq. destruct r as [e|].
  - by exists (Some e), w', evs.
  - by exists None, (activated newProvider authConfig w'), evs.
Qed.

(** C8.  Once the new provider is initialised, [UpdateConfig] fails exactly
    with the error of the first store call that fails, stops calling the
    store there, and leaves the active provider and the in-memory config as
    they were.  It succeeds only when no store call failed; then every
    non-empty setting of the map is stored and the pair is the new provider
    and the submitted config. *)
Theorem C8_store_failure_aborts_before_swap authConfig w (newProvider : P) :
  initProviderWithConfig authConfig = inr newProvider →
  ∃ r w',
    UpdateConfig authConfig w = (r, w') ∧
    match r with
    | Some e =>
        (∃ m, first_fault (faults (rancherClient w)) m e ∧
              faults (rancherClient w') = drop (S m) (faults (rancherClient w))) ∧
        provider w' = provider w ∧
        authConfigInMemory w' = authConfigInMemory w
    | None =>
        (∃ n, quiet (faults (rancherClient w)) n ∧
              faults (rancherClient w') = drop n (faults (rancherClient w))) ∧
        provider w' = Some newProvider ∧
        authConfigInMemory w' = authConfig ∧
        ∀ key value,
          settings_of w authConfig newProvider !! key = Some value →
          value ≠ "" →
          db (rancherClient w') !! key = Some value
    end.
Proof.
  intros Hinit. rewrite UpdateConfig_eq, Hinit.
  destruct (updateSettings_spec (settings_of w authConfig newProvider) w)
    as (r & c & n & evs & Heq & _ & _ & Hr).
  rewrite Heq. destruct r as [e|].
  - exists (Some e), (after w c n evs). split; [done|].
    destruct Hr as (m & -> & Hff). split; [|done]. by exists m.
  - exists None, (activated newProvider authConfig (after w c n evs)).
    split; [done|]. destruct Hr as [Hq Hok]. split; [by exists n|done].
Qed.

(** *** The identity resolver *)

(** What one allow-list entry contributes when it is not resolved: a stub
    when it has a colon, nothing otherwise. *)
Definition stub_of (id : string) : list client.Identity :=
  match strings.SplitN id ":" 2 with
  | part0 :: part1 :: _ => [stub id part0 part1]
  | _ => []
  end.

Lemma getAllowedIdentities_loop_stubs (externalIDList : list string)
    (accessToken : string) (identities : list client.Identity) w :
  provider w = None ∨ accessToken = "" →
  getAllowedIdentities_loop externalIDList accessToken identities w
  = (identities ++ flat_map stub_of externalIDList, w).
Proof.
  intros Hoff. revert identities.
  induction externalIDList as [|id rest IH]; intros identities.
  { simpl. by rewrite app_nil_r. }
  cbn [getAllowedIdentities_loop flat_map]. unfold stub_of at 1.
  destruct (strings.SplitN id ":" 2) as [|part0 [|part1 more]];
    [apply IH|apply IH|].
  unfold bind, get_provider.
  assert (Hgo : getAllowedIdentities_loop rest accessToken
                  (identities ++ [stub id part0 part1]) w
                = (identities ++ [stub id part0 part1] ++ flat_map stub_of rest, w)).
  { rewrite IH. by rewrite <- app_assoc. }
  destruct Hoff as [Hnil|Hempty].
  - by rewrite Hnil.
  - destruct (provider w); [|done]. subst accessToken.
    by rewrite bool_decide_eq_false_2 by (intros Hne; by apply Hne).
Qed.

Lemma getAllowedIdentities_stubs (entries : list string) (accessToken : string) w :
  provider w = None ∨ accessToken = "" →
  Forall (λ e, strings.free_of "," e = true) entries →
  getAllowedIdentities (strings.Join entries ",") accessToken w
  = (flat_map stub_of entries, w).
Proof.
  intros Hoff Hfree. unfold getAllowedIdentities. case_bool_decide as Hne.
  - rewrite Split_Join; [by apply getAllowedIdentities_loop_stubs|done|].
    intros ->. by apply Hne.
  - apply Join_nil_iff in Hne as [->| ->]; done.
Qed.


(** *** [readSettings] *)

(** The map the read loop builds from [dbSettings] over the store contents. *)
Fixpoint read_into (contents : gmap string string) (settings : list string)
    (dbSettings : gmap string string) : gmap string string :=
  match settings with
  | [] => dbSettings
  | key :: rest => read_into contents rest (<[key := index contents key]> dbSettings)
  end.

Lemma read_into_lookup contents settings dbSettings key :
  read_into contents settings dbSettings !! key
  = if bool_decide (key ∈ settings) then Some (index contents key)
    else dbSettings !! key.
Proof.
  revert dbSettings. induction settings as [|k rest IH]; intros dbSettings.
  { cbn [read_into]. case_bool_decide as Hin; [|done].
    by apply elem_of_nil in Hin. }
  cbn [read_into]. rewrite IH. case_bool_decide as Hrest.
  - by rewrite bool_decide_eq_true_2 by (by right).
  - destruct (decide (key = k)) as [->|Hne].
    + rewrite bool_decide_eq_true_2 by (by left). apply lookup_insert_eq.
    + rewrite bool_decide_eq_false_2 by (by intros [?|?]%elem_of_cons).
      by apply lookup_insert_ne.
Qed.

Lemma readSettings_loop_spec (settings : list string)
    (dbSettings : gmap string string) w :
  ∃ result err n,
    readSettings_loop settings dbSettings w
    = ((result, err),
       after w (db (rancherClient w)) n (EvSettingById <$> take n settings)) ∧
    match err with
    | Some e =>
        ∃ m, n = S m ∧ m < List.length settings ∧
             first_fault (faults (rancherClient w)) m e ∧
             result = read_into (db (rancherClient w)) (take m settings) dbSettings
    | None =>
        n = List.length settings ∧ quiet (faults (rancherClient w)) n ∧
        result = read_into (db (rancherClient w)) settings dbSettings
    end.
Proof.
  revert dbSettings w. induction settings as [|key rest IH]; intros dbSettings w.
  { exists dbSettings, None, 0. simpl. rewrite after_0.
    repeat split; try done. intros i Hi. lia. }
  simpl. unfold bind at 1. rewrite Setting_ById_eq.
  destruct (next_fault (faults (rancherClient w))) as [e|] eqn:Hf0.
  { exists dbSettings, (Some e), 1. split; [done|]. exists 0.
    repeat split; try done; [simpl; lia|by apply next_fault_Some|].
    intros i Hi. lia. }
  simpl.
  set (w1 := after w _ 1 _).
  destruct (IH (<[key := index (db (rancherClient w)) key]> dbSettings) w1)
    as (result & err & n & Heq & Hr).
  exists result, err, (S n). rewrite Heq. unfold w1. rewrite after_after. simpl.
  split; [done|].
  assert (Hq1 : quiet (faults (rancherClient w)) 1).
  { intros [|i] Hi; [|lia]. rewrite <- (drop_0 (faults _)) in Hf0.
    by rewrite next_fault_drop in Hf0. }
  destruct err as [e|].
  - destruct Hr as (m & -> & Hm & Hff & Hres). exists (S m).
    split; [done|]. split; [simpl; lia|].
    split; [exact (first_fault_shift _ 1 m e Hq1 Hff)|done].
  - destruct Hr as (-> & Hq & Hres). split; [done|].
    split; [exact (quiet_shift _ 1 _ Hq1 Hq)|done].
Qed.

(** *** [GetConfig] *)

(** The config [GetConfig] composes from the generic settings it read. *)
Definition composed (dbSettings : gmap string string)
    (allowed : list client.Identity) : model.AuthConfig :=
  {| model.AuthConfig_Resource := model.AuthConfig_Resource config_zero;
     model.Provider := index dbSettings providerNameSetting;
     model.Enabled :=
       match strconv.ParseBool (index dbSettings securitySetting) with
       | (enabled, None) => enabled
       | (_, Some _) => false
       end;
     model.AccessMode := index dbSettings accessModeSetting;
     model.AllowedIdentities := allowed;
     model.ProviderConfig := model.ProviderConfig config_zero |}.

Definition genericSettings : list string :=
  [accessModeSetting; allowedIdentitiesSetting; securitySetting;
   providerSetting; providerNameSetting].

Lemma GetConfig_eq (accessToken : string) w :
  GetConfig accessToken w =
    let '((dbSettings, err), wa) := readSettings genericSettings w in
    match err with
    | Some e => ((config_zero, Some e), wa)
    | None =>
        let '(allowed, wb) :=
          getAllowedIdentities (index dbSettings allowedIdentitiesSetting)
            accessToken wa in
        let config := composed dbSettings allowed in
        match providers.GetProvider (model.Provider config) with
        | None =>
            ((config,
              Some ("Could not get the " +:+ model.Provider config
                    +:+ " auth provider")), wb)
        | Some newProvider =>
            let '((providerSettings, _), wc) :=
              readSettings (providers.GetProviderSettingList newProvider) wb in
            ((providers.AddProviderConfig newProvider config providerSettings, None),
             wc)
        end
    end.
Proof.
  unfold GetConfig. unfold bind at 1. fold genericSettings.
  destruct (readSettings genericSettings w) as [[dbSettings [e|]] wa]; [done|].
  unfold bind at 1.
  destruct (getAllowedIdentities _ accessToken wa) as [allowed wb].
  unfold composed.
  destruct (strconv.ParseBool (index dbSettings securitySetting)) as [enabled perr].
  simpl.
  destruct (providers.GetProvider (index dbSettings providerNameSetting))
    as [newProvider|]; [|done].
  unfold bind.
  destruct (readSettings _ wb) as [[providerSettings perr'] wc]. done.
Qed.

(** *** The round trip through the store *)



(** An identity whose id is [externalIdType:externalId], with no comma in
    either part and no colon in the type: the form the serialized allow-list
    can carry. *)
Definition well_formed (a : client.Identity) : Prop :=
  id_of a = client.ExternalIdType a +:+ ":" +:+ client.ExternalId a ∧
  strings.free_of "," (client.ExternalIdType a) = true ∧
  strings.free_of "," (client.ExternalId a) = true ∧
  strings.free_of ":" (client.ExternalIdType a) = true.




Lemma well_formed_free (a : client.Identity) :
  well_formed a → strings.free_of "," (id_of a) = true.
Proof.
  intros (-> & Hk & Hx & _). rewrite !free_of_app, Hk, Hx. reflexivity.
Qed.

Lemma well_formed_split (a : client.Identity) :
  well_formed a →
  strings.SplitN (id_of a) ":" 2 = [client.ExternalIdType a; client.ExternalId a].
Proof.
  intros (-> & _ & _ & Hc).
  change (":" +:+ client.ExternalId a) with (String ":" (client.ExternalId a)).
  by apply SplitN_2_app_sep.
Qed.





Lemma index_lookup (m : gmap string string) key value :
  m !! key = Some value → index m key = value.
Proof. unfold index. by intros ->. Qed.


(** ** Further properties of the settings synchronizer *)

Lemma first_fault_elem (fs : list (option error)) m e :
  first_fault fs m e → Some e ∈ fs.
Proof. intros [Hm _]. by apply list_elem_of_lookup_2 in Hm. Qed.

(** X1.  When [readSettings] succeeds, the map it returns has exactly the
    requested keys, each with the value the store holds for it; the store
    contents and the active pair are untouched, and the store was read once
    per key, in order. *)
Theorem X1_readSettings_returns_stored_values (settings : list string) w :
  (readSettings settings w).1.2 = None →
  ∃ result w',
    readSettings settings w = ((result, None), w') ∧
    (∀ key, result !! key
            = if bool_decide (key ∈ settings)
              then Some (index (db (rancherClient w)) key) else None) ∧
    db (rancherClient w') = db (rancherClient w) ∧
    provider w' = provider w ∧
    authConfigInMemory w' = authConfigInMemory w ∧
    trace w' = trace w ++ (EvSettingById <$> settings).
Proof.
  unfold readSettings.
  destruct (readSettings_loop_spec settings ∅ w) as (result & err & n & Heq & Hr).
  rewrite Heq. simpl. intros ->. destruct Hr as (-> & _ & ->).
  eexists _, _. split; [done|]. simpl. rewrite firstn_all.
  repeat split; try done. intros key. by rewrite read_into_lookup, lookup_empty.
Qed.

(** X2.  When [readSettings] fails, its error is that of the first store
    call that failed; the map it returns holds exactly the keys read before
    that call, and no key after the failing one was requested. *)
Theorem X2_readSettings_stops_at_first_failure (settings : list string) w (e : error) :
  (readSettings settings w).1.2 = Some e →
  ∃ m result w',
    readSettings settings w = ((result, Some e), w') ∧
    first_fault (faults (rancherClient w)) m e ∧
    m < List.length settings ∧
    (∀ key, result !! key
            = if bool_decide (key ∈ take m settings)
              then Some (index (db (rancherClient w)) key) else None) ∧
    trace w' = trace w ++ (EvSettingById <$> take (S m) settings) ∧
    faults (rancherClient w') = drop (S m) (faults (rancherClient w)).
Proof.
  unfold readSettings.
  destruct (readSettings_loop_spec settings ∅ w) as (result & err & n & Heq & Hr).
  rewrite Heq. simpl. intros ->. destruct Hr as (m & -> & Hm & Hff & ->).
  exists m. eexists _, _. split; [done|]. simpl.
  repeat split; try done; try apply Hff.
  intros key. by rewrite read_into_lookup, lookup_empty.
Qed.

(** X3.  When [updateSettings] succeeds, the store holds every non-empty
    value of the map under its key and every other key keeps its value; the
    active pair is untouched. *)
Theorem X3_updateSettings_stores_nonempty_values (settings : gmap string string) w :
  (updateSettings settings w).1 = None →
  (∀ key,
     db (rancherClient (updateSettings settings w).2) !! key
     = match settings !! key with
       | Some value =>
           if bool_decide (value = "") then db (rancherClient w) !! key
           else Some value
       | None => db (rancherClient w) !! key
       end) ∧
  provider (updateSettings settings w).2 = provider w ∧
  authConfigInMemory (updateSettings settings w).2 = authConfigInMemory w.
Proof.
  destruct (updateSettings_spec settings w)
    as (r & c & n & evs & Heq & _ & Hframe & Hr).
  rewrite Heq. simpl. intros ->. destruct Hr as [_ Hok].
  split; [|done]. intros key.
  destruct (settings !! key) as [value|] eqn:Hkey.
  - case_bool_decide as Hv.
    + subst value. apply Hframe. by right.
    + by apply Hok.
  - apply Hframe. by left.
Qed.

(** X4.  Failures come from the store only: on a store whose calls all
    succeed, [updateSettings] and [readSettings] succeed, and [UpdateConfig]
    returns exactly the outcome of initialising the provider. *)
Theorem X4_no_failure_without_store_fault (settings : gmap string string)
    (keys : list string) authConfig w :
  Forall (λ f, f = None) (faults (rancherClient w)) →
  (updateSettings settings w).1 = None ∧
  (readSettings keys w).1.2 = None ∧
  (UpdateConfig authConfig w).1
  = match initProviderWithConfig authConfig with
    | inl err => Some err
    | inr _ => None
    end.
Proof.
  intros Hquiet.
  assert (Hno : ∀ m e, ¬ first_fault (faults (rancherClient w)) m e).
  { intros m e Hff%first_fault_elem. rewrite Forall_forall in Hquiet.
    by apply Hquiet in Hff. }
  assert (Hup : ∀ s, (updateSettings s w).1 = None).
  { intros s. destruct (updateSettings_spec s w)
      as (r & c & n & evs & Heq & _ & _ & Hr).
    rewrite Heq. simpl. destruct r as [e|]; [|done].
    destruct Hr as (m & _ & Hff). by apply Hno in Hff. }
  split; [apply Hup|]. split.
  - unfold readSettings.
    destruct (readSettings_loop_spec keys ∅ w) as (result & err & n & Heq & Hr).
    rewrite Heq. simpl. destruct err as [e|]; [|done].
    destruct Hr as (m & _ & _ & Hff & _). by apply Hno in Hff.
  - rewrite UpdateConfig_eq.
    destruct (initProviderWithConfig authConfig) as [err|newProvider]; [done|].
    specialize (Hup (settings_of w authConfig newProvider)).
    destruct (updateSettings _ w) as [[e|] w']; done.
Qed.

(** The calls of one round trip: a read, then the update. *)
Definition round_trip_calls (entry : string * string) : list Event :=
  if bool_decide (entry.2 ≠ "")
  then [EvSettingById entry.1; EvSettingUpdate entry.1 entry.2] else [].

Lemma updateSettings_loop_cons (key value : string)
    (rest : list (string * string)) w :
  value ≠ "" →
  updateSettings_loop ((key, value) :: rest) w =
    match next_fault (faults (rancherClient w)) with
    | Some e => (Some e, after w (db (rancherClient w)) 1 [EvSettingById key])
    | None =>
        match next_fault (drop 1 (faults (rancherClient w))) with
        | Some e =>
            (Some e, after w (db (rancherClient w)) 2
                       [EvSettingById key; EvSettingUpdate key value])
        | None =>
            updateSettings_loop rest
              (after w (<[key := value]> (db (rancherClient w))) 2
                 [EvSettingById key; EvSettingUpdate key value])
        end
    end.
Proof.
  intros Hv. cbn [updateSettings_loop]. rewrite bool_decide_eq_true_2 by done.
  unfold bind at 1. rewrite Setting_ById_eq.
  destruct (next_fault (faults (rancherClient w))) as [e|]; [done|].
  unfold bind at 1. rewrite Setting_Update_eq. simpl.
  destruct (next_fault (drop 1 (faults (rancherClient w)))) as [e|];
    by rewrite after_after.
Qed.

Lemma updateSettings_loop_calls (entries : list (string * string)) w :
  (updateSettings_loop entries w).1 = None →
  trace (updateSettings_loop entries w).2
  = trace w ++ flat_map round_trip_calls entries.
Proof.
  revert w. induction entries as [|[k v] rest IH]; intros w.
  { simpl. by rewrite app_nil_r. }
  cbn [flat_map]. unfold round_trip_calls at 1. cbn [fst snd].
  case_bool_decide as Hv.
  2:{ cbn [updateSettings_loop]. rewrite bool_decide_eq_false_2 by (by intros ?).
      apply IH. }
  rewrite updateSettings_loop_cons by done.
  destruct (next_fault (faults (rancherClient w))) as [e|]; [done|].
  destruct (next_fault (drop 1 (faults (rancherClient w)))) as [e|]; [done|].
  intros Hok. rewrite (IH _ Hok). simpl. by rewrite <- !app_assoc.
Qed.

(** X5.  A successful [updateSettings] makes one round trip per non-empty
    entry, in the order the map is ranged over: a read of the key followed
    by its update, and no other call. *)
Theorem X5_updateSettings_one_round_trip_per_key (settings : gmap string string) w :
  (updateSettings settings w).1 = None →
  trace (updateSettings settings w).2
  = trace w ++ flat_map round_trip_calls (range settings).
Proof. apply updateSettings_loop_calls. Qed.

(** ** Further properties of the config manager *)

(** X6.  When the provider cannot be initialised, because the registry does
    not know the name or because [LoadConfig] rejects the config,
    [UpdateConfig] returns that error and the world is untouched: no store
    call is made and the active pair stays. *)
Theorem X6_UpdateConfig_init_failure_touches_nothing authConfig w :
  match providers.GetProvider (P := P) (model.Provider authConfig) with
  | None =>
      UpdateConfig authConfig w
      = (Some ("Could not get the " +:+ model.Provider authConfig
               +:+ " auth provider"), w)
  | Some newProvider =>
      match providers.LoadConfig newProvider authConfig with
      | inl e => UpdateConfig authConfig w = (Some e, w)
      | inr _ => True
      end
  end.
Proof.
  rewrite UpdateConfig_eq. unfold initProviderWithConfig.
  destruct (providers.GetProvider (model.Provider authConfig)) as [np|]; [|done].
  by destruct (providers.LoadConfig np authConfig).
Qed.

(** X7.  A successful [UpdateConfig] of an enabled config stores the
    provider name under both provider keys and "true" under the security
    key, and the active config is the submitted one. *)
Theorem X7_enabling_writes_configured_provider authConfig w :
  model.Enabled authConfig = true →
  providers.GetProvider (P := P) "" = None →
  (UpdateConfig authConfig w).1 = None →
  let w' := (UpdateConfig authConfig w).2 in
  db (rancherClient w') !! providerSetting = Some (model.Provider authConfig) ∧
  db (rancherClient w') !! providerNameSetting = Some (model.Provider authConfig) ∧
  db (rancherClient w') !! securitySetting = Some "true" ∧
  authConfigInMemory w' = authConfig.
Proof.
  intros Hon Hreg. rewrite UpdateConfig_eq.
  destruct (initProviderWithConfig authConfig) as [err|newProvider] eqn:Hinit;
    [done|].
  assert (Hname : model.Provider authConfig ≠ "").
  { intros Hempty. unfold initProviderWithConfig in Hinit.
    by rewrite Hempty, Hreg in Hinit. }
  destruct (updateSettings_spec (settings_of w authConfig newProvider) w)
    as (r & c & n & evs & Heq & _ & _ & Hr).
  rewrite Heq. destruct r as [e|]; [done|]. intros _. simpl.
  destruct Hr as [_ Hok]. repeat split.
  - apply Hok; [|done]. unfold settings_of.
    by rewrite addGenericSettings_provider, Hon.
  - apply Hok; [|done]. apply addGenericSettings_providerName.
  - apply Hok; [|done]. unfold settings_of.
    by rewrite addGenericSettings_security, Hon.
Qed.

(** X8.  [UpdateConfig] is idempotent on the store once a provider is
    active: on a store that does not fail, submitting the same config again
    leaves the stored settings as the first submission left them. *)
Theorem X8_UpdateConfig_twice_same_store authConfig w :
  provider w ≠ None →
  Forall (λ f, f = None) (faults (rancherClient w)) →
  db (rancherClient (UpdateConfig authConfig (UpdateConfig authConfig w).2).2)
  = db (rancherClient (UpdateConfig authConfig w).2).
Proof.
  intros Hactive Hquiet. rewrite (UpdateConfig_eq authConfig w).
  destruct (initProviderWithConfig authConfig) as [err|newProvider] eqn:Hinit.
  { simpl. rewrite UpdateConfig_eq, Hinit. done. }
  destruct (updateSettings_spec (settings_of w authConfig newProvider) w)
    as (r & c & n & evs & Heq & _ & _ & Hr).
  rewrite Heq. destruct r as [e|].
  { destruct Hr as (m & _ & Hff%first_fault_elem).
    rewrite Forall_forall in Hquiet. by apply Hquiet in Hff. }
  destruct Hr as [_ Hok]. simpl.
  set (w1 := activated newProvider authConfig (after w c n evs)).
  assert (Hsame : settings_of w1 authConfig newProvider
                  = settings_of w authConfig newProvider).
  { unfold settings_of. rewrite !getAllowedIDString_eq. simpl.
    by destruct (provider w). }
  rewrite UpdateConfig_eq, Hinit, Hsame.
  destruct (updateSettings_spec (settings_of w authConfig newProvider) w1)
    as (r' & c' & n' & evs' & Heq' & _ & Hframe' & Hr').
  rewrite Heq'.
  assert (Hc' : c' = c).
  { apply map_eq. intros key.
    destruct (settings_of w authConfig newProvider !! key) as [value|] eqn:Hkey.
    - destruct (decide (value = "")) as [->|Hne].
      + apply Hframe'. by right.
      + destruct r' as [e|].
        * destruct Hr' as (m & _ & Hff%first_fault_elem). simpl in Hff.
          apply subseteq_drop in Hff.
          rewrite Forall_forall in Hquiet. by apply Hquiet in Hff.
        * destruct Hr' as [_ Hok']. by rewrite (Hok' key value), (Hok key value).
    - apply Hframe'. by left. }
  destruct r' as [e|]; simpl; done.
Qed.

(** *** What [GetConfig] and [Reload] leave alone *)

Lemma emit_after (ev : Event) w :
  emit ev w = (tt, after w (db (rancherClient w)) 0 [ev]).
Proof. destruct w as [p c [d f] t]. reflexivity. Qed.

(** A lookup the resolver makes with the token [accessToken]. *)
Definition lookup_with (accessToken : string) (ev : Event) : Prop :=
  accessToken ≠ "" ∧
  ∃ externalID externalIDType, ev = EvGetIdentity externalID externalIDType accessToken.

Lemma getAllowedIdentities_loop_world (externalIDList : list string)
    (accessToken : string) (identities : list client.Identity) w :
  ∃ resolved evs,
    getAllowedIdentities_loop externalIDList accessToken identities w
    = (resolved, after w (db (rancherClient w)) 0 evs) ∧
    Forall (lookup_with accessToken) evs.
Proof.
  revert identities w. induction externalIDList as [|id rest IH]; intros identities w.
  { exists identities, []. simpl. by rewrite after_0. }
  cbn [getAllowedIdentities_loop].
  destruct (strings.SplitN id ":" 2) as [|part0 [|part1 more]]; try apply IH.
  unfold bind at 1, get_provider.
  destruct (provider w) as [prov|]; [|apply IH].
  case_bool_decide as Htok; [|apply IH].
  unfold bind at 1. rewrite emit_after.
  assert (Hone : lookup_with accessToken (EvGetIdentity part1 part0 accessToken)).
  { split; [done|]. by eexists _, _. }
  destruct (providers.GetIdentity prov part1 part0 accessToken) as [e|idn].
  - destruct (IH (identities ++ [stub id part0 part1])
                (after w (db (rancherClient w)) 0
                   [EvGetIdentity part1 part0 accessToken]))
      as (res & evs & Heq & Hevs).
    rewrite Heq, after_after. eexists _, _. split; [done|].
    by apply Forall_cons.
  - destruct (IH (identities ++ [idn])
                (after w (db (rancherClient w)) 0
                   [EvGetIdentity part1 part0 accessToken]))
      as (res & evs & Heq & Hevs).
    rewrite Heq, after_after. eexists _, _. split; [done|].
    by apply Forall_cons.
Qed.

Lemma getAllowedIdentities_world (idString accessToken : string) w :
  ∃ resolved evs,
    getAllowedIdentities idString accessToken w
    = (resolved, after w (db (rancherClient w)) 0 evs) ∧
    Forall (lookup_with accessToken) evs.
Proof.
  unfold getAllowedIdentities. case_bool_decide.
  - apply getAllowedIdentities_loop_world.
  - exists [], []. unfold ret. by rewrite after_0.
Qed.

(** A read of the store, or a lookup with the token. *)
Definition read_or_lookup (accessToken : string) (ev : Event) : Prop :=
  (∃ key, ev = EvSettingById key) ∨ lookup_with accessToken ev.

Lemma Forall_reads (keys : list string) (accessToken : string) :
  Forall (read_or_lookup accessToken) (EvSettingById <$> keys).
Proof. apply Forall_fmap, Forall_true. intros key. left. by eexists. Qed.

Lemma readSettings_world (settings : list string) w :
  ∃ r n, readSettings settings w
         = (r, after w (db (rancherClient w)) n (EvSettingById <$> take n settings)).
Proof.
  unfold readSettings.
  destruct (readSettings_loop_spec settings ∅ w) as (result & err & n & Heq & _).
  by exists (result, err), n.
Qed.

Lemma GetConfig_world (accessToken : string) w :
  ∃ n evs,
    (GetConfig accessToken w).2 = after w (db (rancherClient w)) n evs ∧
    Forall (read_or_lookup accessToken) evs.
Proof.
  rewrite GetConfig_eq.
  destruct (readSettings_world genericSettings w) as ([dbSettings err] & n & Heq).
  rewrite Heq. destruct err as [e|].
  { eexists _, _. split; [done|]. apply Forall_reads. }
  set (wa := after w _ n _).
  destruct (getAllowedIdentities_world
              (index dbSettings allowedIdentitiesSetting) accessToken wa)
    as (allowed & evs & Heq' & Hevs).
  rewrite Heq'. unfold wa. rewrite after_after. simpl.
  assert (Hall : Forall (read_or_lookup accessToken)
                   ((EvSettingById <$> take n genericSettings) ++ evs)).
  { apply Forall_app. split; [apply Forall_reads|].
    eapply Forall_impl; [exact Hevs|]. intros ev Hev. by right. }
  destruct (providers.GetProvider _) as [np|]; [|by eexists _, _].
  set (wb := after w _ _ _).
  destruct (readSettings_world (providers.GetProviderSettingList np) wb)
    as ([providerSettings perr] & n' & Heq'').
  rewrite Heq''. unfold wb. rewrite after_after. simpl.
  eexists _, _. split; [done|]. apply Forall_app. split; [done|apply Forall_reads].
Qed.

(** X9.  [GetConfig] only reads: whatever the token and the outcome, the
    active pair and the stored settings are what they were, and the calls it
    makes are reads of the store and, for a non-empty token only, identity
    lookups with that token. *)
Theorem X9_GetConfig_only_reads (accessToken : string) w :
  provider (GetConfig accessToken w).2 = provider w ∧
  authConfigInMemory (GetConfig accessToken w).2 = authConfigInMemory w ∧
  db (rancherClient (GetConfig accessToken w).2) = db (rancherClient w) ∧
  ∃ evs, trace (GetConfig accessToken w).2 = trace w ++ evs ∧
         Forall (read_or_lookup accessToken) evs.
Proof.
  destruct (GetConfig_world accessToken w) as (n & evs & -> & Hevs).
  repeat split. by exists evs.
Qed.

(** X10.  [Reload] never writes to the store and never asks the provider
    for an identity: its calls are reads of the store.  When initialising
    the provider from the config it read fails, that error is returned and
    the active pair stays; otherwise the pair becomes the new provider and
    that config. *)
Theorem X10_Reload_reads_then_swaps w :
  db (rancherClient (Reload w).2) = db (rancherClient w) ∧
  (∃ evs, trace (Reload w).2 = trace w ++ evs ∧
          Forall (λ ev, ∃ key, ev = EvSettingById key) evs) ∧
  match initProviderWithConfig (GetConfig "" w).1.1 with
  | inl err =>
      (Reload w).1 = Some err ∧
      provider (Reload w).2 = provider w ∧
      authConfigInMemory (Reload w).2 = authConfigInMemory w
  | inr newProvider =>
      (Reload w).1 = None ∧
      provider (Reload w).2 = Some newProvider ∧
      authConfigInMemory (Reload w).2 = (GetConfig "" w).1.1
  end.
Proof.
  unfold Reload, bind.
  destruct (GetConfig_world "" w) as (n & evs & Hw & Hevs).
  destruct (GetConfig "" w) as [[authConfig gerr] wg]. simpl in *. subst wg.
  assert (Hreads : Forall (λ ev, ∃ key, ev = EvSettingById key) evs).
  { eapply Forall_impl; [exact Hevs|]. intros ev [Hr|[Hne _]]; done. }
  destruct (initProviderWithConfig authConfig) as [err|newProvider]; simpl.
  - repeat split. by exists evs.
  - repeat split. by exists evs.
Qed.

(** The first fault among the first [n] calls of a schedule. *)
Fixpoint first_error (fs : list (option error)) (n : nat) {struct n}
  : option error :=
  match n, fs with
  | S n', Some e :: _ => Some e
  | S n', None :: fs' => first_error fs' n'
  | _, _ => None
  end.

Lemma first_error_quiet fs n : quiet fs n → first_error fs n = None.
Proof.
  revert fs. induction n as [|n IH]; intros fs Hq; [done|].
  destruct fs as [|[e|] fs]; simpl; [done| |].
  - specialize (Hq 0). simpl in Hq. discriminate Hq. lia.
  - apply IH. intros i Hi. apply (Hq (S i)). lia.
Qed.

Lemma first_error_fault fs n m e :
  first_fault fs m e → m < n → first_error fs n = Some e.
Proof.
  revert fs m. induction n as [|n IH]; intros fs m [Hm Hq] Hlt; [lia|].
  destruct fs as [|f fs]; [done|]. destruct m as [|m].
  - simpl in Hm. injection Hm as ->. done.
  - destruct f as [e'|].
    + specialize (Hq 0). simpl in Hq. discriminate Hq. lia.
    + simpl. apply (IH fs m); [|lia]. split; [done|].
      intros i Hi. apply (Hq (S i)). lia.
Qed.

(** X11.  The error of [GetConfig] is decided by its five generic reads and
    the registry alone: it is the first failure among those five store
    calls if there is one, else the unknown-provider error if the stored
    provider name is not registered, else nil, whatever the later store
    calls answer. *)
Theorem X11_GetConfig_error_is_decided_by_generic_reads (accessToken : string) w :
  (GetConfig accessToken w).1.2
  = match first_error (faults (rancherClient w)) 5 with
    | Some e => Some e
    | None =>
        let name := index (db (rancherClient w)) providerNameSetting in
        match providers.GetProvider (P := P) name with
        | None => Some ("Could not get the " +:+ name +:+ " auth provider")
        | Some _ => None
        end
    end.
Proof.
  rewrite GetConfig_eq. unfold readSettings.
  destruct (readSettings_loop_spec genericSettings ∅ w)
    as (result & err & n & Heq & Hr).
  rewrite Heq. destruct err as [e|].
  { destruct Hr as (m & _ & Hm & Hff & _).
    by rewrite (first_error_fault _ 5 m e Hff Hm). }
  destruct Hr as (-> & Hq & ->). rewrite (first_error_quiet _ 5 Hq).
  destruct (getAllowedIdentities _ accessToken _) as [allowed wb].
  assert (Hname : model.Provider
                    (composed (read_into (db (rancherClient w)) genericSettings ∅)
                       allowed)
                  = index (db (rancherClient w)) providerNameSetting).
  { unfold composed. cbn [model.Provider]. apply index_lookup.
    rewrite read_into_lookup.
    rewrite bool_decide_eq_true_2; [done|]. unfold genericSettings. set_solver. }
  cbv zeta. rewrite Hname.
  destruct (providers.GetProvider _) as [np|]; [|done].
  by destruct (readSettings_loop _ _ wb) as [[providerSettings perr] wc].
Qed.

(** ** Further properties of the token service *)

(** The token operation selected by [refresh], and the provider method and
    the event that go with it. *)
Definition token_op (refresh : bool) (input : string) : M (P := P) (string * option error) :=
  if refresh then RefreshToken input else CreateToken input.

Definition provider_answer (refresh : bool) (prov : P) (input : string)
  : error + model.Token :=
  if refresh then providers.RefreshToken prov input
  else providers.GenerateToken prov input.

Definition provider_call (refresh : bool) (input : string) : Event :=
  if refresh then EvRefreshToken input else EvGenerateToken input.

Lemma token_op_eq (refresh : bool) (input : string) w :
  token_op refresh input w =
    match provider w with
    | None => (("", Some "No auth provider configured"), w)
    | Some prov =>
        match provider_answer refresh prov input with
        | inl e =>
            (("", Some e),
             after w (db (rancherClient w)) 0 [provider_call refresh input])
        | inr token =>
            (match util.CreateTokenWithPayload (payload_of token) with
             | inl e => ("", Some e)
             | inr signed => (signed, None)
             end,
             after w (db (rancherClient w)) 0
               [provider_call refresh input; EvSign (payload_of token)])
        end
    end.
Proof.
  unfold token_op, provider_answer, provider_call.
  destruct refresh; unfold RefreshToken, CreateToken;
    unfold bind at 1, get_provider;
    (destruct (provider w) as [prov|]; [|done]);
    unfold bind at 1; rewrite emit_after.
  - destruct (providers.RefreshToken prov input) as [e|token]; [done|].
    unfold sign, bind. rewrite emit_after, after_after.
    by destruct (util.CreateTokenWithPayload (payload_of token)).
  - destruct (providers.GenerateToken prov input) as [e|token]; [done|].
    unfold sign, bind. rewrite emit_after, after_after.
    by destruct (util.CreateTokenWithPayload (payload_of token)).
Qed.

(** X12.  A token returned without error by [CreateToken] or
    [RefreshToken] is what the signer produced for the payload built from
    the active provider's answer; the provider was called once and the
    signer once, in that order. *)
Theorem X12_token_is_signed_provider_answer (refresh : bool) (input : string) w :
  (token_op refresh input w).1.2 = None →
  ∃ prov token,
    provider w = Some prov ∧
    provider_answer refresh prov input = inr token ∧
    util.CreateTokenWithPayload (payload_of token)
    = inr (token_op refresh input w).1.1 ∧
    trace (token_op refresh input w).2
    = trace w ++ [provider_call refresh input; EvSign (payload_of token)].
Proof.
  rewrite token_op_eq. destruct (provider w) as [prov|]; [|done].
  destruct (provider_answer refresh prov input) as [e|token] eqn:Hans; [done|].
  destruct (util.CreateTokenWithPayload (payload_of token)) as [e|signed] eqn:Hs;
    [done|].
  intros _. by exists prov, token.
Qed.


(** X14.  The token and identity operations change nothing but the trace:
    the active provider, the in-memory config and the settings store are
    what they were. *)
Theorem X14_token_and_identity_operations_keep_state (a b c : string) (exact : bool) w :
  let same (w' : World (P := P)) :=
    provider w' = provider w ∧
    authConfigInMemory w' = authConfigInMemory w ∧
    rancherClient w' = rancherClient w in
  same (CreateToken a w).2 ∧ same (RefreshToken a w).2 ∧
  same (GetIdentities a w).2 ∧ same (GetIdentity a b c w).2 ∧
  same (SearchIdentities a exact b w).2.
Proof.
  intros same. unfold same. repeat split;
    unfold CreateToken, RefreshToken, GetIdentities, GetIdentity, SearchIdentities,
      sign, bind, get_provider, emit, ret;
    destruct (provider w) as [prov|] eqn:Hp; simpl; try done;
    repeat match goal with
           | |- context [match ?x with inl _ => _ | inr _ => _ end] =>
               destruct x; simpl
           end; done.
Qed.

(** X15.  With no active provider the three identity operations return the
    error "No auth provider configured" with an empty result, and leave the
    world as it was. *)
Theorem X15_identity_operations_need_provider (a b c : string) (exact : bool) w :
  provider w = None →
  GetIdentities a w = (([], Some "No auth provider configured"), w) ∧
  GetIdentity a b c w
  = ((client.Identity_zero, Some "No auth provider configured"), w) ∧
  SearchIdentities a exact b w = (([], Some "No auth provider configured"), w).
Proof.
  intros Hnil. unfold GetIdentities, GetIdentity, SearchIdentities, bind,
    get_provider, ret. by rewrite Hnil.
Qed.

(** ** Further properties of the identity resolver *)

Lemma getAllowedIdentities_loop_fallback (externalIDList : list string)
    (accessToken : string) (identities : list client.Identity) w (prov : P) :
  provider w = Some prov →
  (∀ externalID externalIDType idn,
     providers.GetIdentity prov externalID externalIDType accessToken ≠ inr idn) →
  (getAllowedIdentities_loop externalIDList accessToken identities w).1
  = identities ++ flat_map stub_of externalIDList.
Proof.
  intros Hprov Hfail. revert identities w Hprov.
  induction externalIDList as [|id rest IH]; intros identities w Hprov.
  { simpl. by rewrite app_nil_r. }
  cbn [getAllowedIdentities_loop flat_map]. unfold stub_of at 1.
  destruct (strings.SplitN id ":" 2) as [|part0 [|part1 more]];
    [by apply IH|by apply IH|].
  unfold bind at 1, get_provider. rewrite Hprov.
  case_bool_decide.
  - unfold bind at 1. rewrite emit_after.
    destruct (providers.GetIdentity prov part1 part0 accessToken) as [e|idn] eqn:Hg.
    + rewrite IH by done. by rewrite <- app_assoc.
    + by apply Hfail in Hg.
  - rewrite IH by done. by rewrite <- app_assoc.
Qed.

(** X16.  When the provider answers none of the lookups, resolving with a
    token gives the same identities as resolving without one: every entry
    falls back to its stub. *)
Theorem X16_failed_lookups_fall_back_to_stubs (idString accessToken : string)
    w (prov : P) :
  provider w = Some prov →
  (∀ externalID externalIDType idn,
     providers.GetIdentity prov externalID externalIDType accessToken ≠ inr idn) →
  (getAllowedIdentities idString accessToken w).1
  = (getAllowedIdentities idString "" w).1.
Proof.
  intros Hprov Hfail. unfold getAllowedIdentities. case_bool_decide; [|done].
  rewrite getAllowedIdentities_loop_fallback with (prov := prov) by done.
  by rewrite getAllowedIdentities_loop_stubs by (by right).
Qed.

(** The entry has a colon. *)
Definition has_colon (id : string) : bool :=
  match strings.Cut id ":" with Some _ => true | None => false end.

Lemma SplitN_2_Cut (id : string) :
  strings.SplitN id ":" 2
  = match strings.Cut id ":" with
    | Some (before, after) => [before; after]
    | None => [id]
    end.
Proof. simpl. by destruct (strings.Cut id ":") as [[? ?]|]. Qed.

Lemma getAllowedIdentities_loop_length (externalIDList : list string)
    (accessToken : string) (identities : list client.Identity) w :
  List.length (getAllowedIdentities_loop externalIDList accessToken identities w).1
  = List.length identities
    + List.length (List.filter has_colon externalIDList).
Proof.
  revert identities w. induction externalIDList as [|id rest IH]; intros identities w.
  { simpl. lia. }
  cbn [getAllowedIdentities_loop List.filter]. unfold has_colon at 1.
  rewrite SplitN_2_Cut.
  destruct (strings.Cut id ":") as [[part0 part1]|]; [|apply IH].
  assert (Hgo : ∀ idn w0,
    List.length (getAllowedIdentities_loop rest accessToken (identities ++ [idn]) w0).1
    = List.length identities + List.length (id :: List.filter has_colon rest)).
  { intros idn w0. rewrite IH, length_app. simpl. lia. }
  unfold bind at 1, get_provider.
  destruct (provider w) as [prov|]; [|apply Hgo].
  case_bool_decide; [|apply Hgo].
  unfold bind at 1, emit.
  destruct (providers.GetIdentity prov part1 part0 accessToken); apply Hgo.
Qed.

(** X17.  Whatever the provider and the token, the resolver returns exactly
    one identity for each entry of the comma-separated list that contains a
    colon, and none for the others. *)
Theorem X17_one_identity_per_entry_with_colon (idString accessToken : string) w :
  List.length (getAllowedIdentities idString accessToken w).1
  = List.length (List.filter has_colon (strings.Split idString ",")).
Proof.
  unfold getAllowedIdentities. case_bool_decide as Hne.
  - by rewrite getAllowedIdentities_loop_length.
  - by subst idString.
Qed.

(** An unresolved record, as the resolver builds them. *)
Definition is_stub (a : client.Identity) : Prop :=
  a = stub (id_of a) (client.ExternalIdType a) (client.ExternalId a).

(** X18.  While a provider is active, serializing a list of well-formed
    stub identities and resolving the string without a token gives the list
    back, and changes nothing. *)
Theorem X18_stubs_survive_serialization (allowed : list client.Identity) w :
  provider w ≠ None →
  Forall well_formed allowed →
  Forall is_stub allowed →
  getAllowedIdentities (getAllowedIDString allowed w).1 "" w = (allowed, w).
Proof.
  intros Hactive Hwf Hstub. rewrite getAllowedIDString_eq. simpl.
  destruct (provider w) as [prov|]; [|done].
  rewrite getAllowedIdentities_stubs; [|by right|].
  2:{ apply Forall_fmap. eapply Forall_impl; [exact Hwf|]. apply well_formed_free. }
  f_equal. clear Hactive.
  induction allowed as [|a rest IH]; [done|].
  apply Forall_cons in Hwf as [Ha Hwf]. apply Forall_cons in Hstub as [Hsa Hstub].
  cbn [map flat_map]. rewrite IH by done.
  unfold stub_of. rewrite (well_formed_split a Ha). simpl. by rewrite <- Hsa.
Qed.

(** ** Properties of the HTTP handlers *)

Lemma HasPrefix_app (pre s : string) : strings.HasPrefix (pre +:+ s) pre = true.
Proof.
  unfold strings.HasPrefix. induction pre as [|c pre IH]; simpl.
  - by destruct s.
  - by destruct (ascii_dec c c).
Qed.

Lemma substring_all (s : string) : String.substring 0 (String.length s) s = s.
Proof. induction s as [|c s IH]; simpl; [done|]. by rewrite IH. Qed.

Lemma TrimPrefix_app (pre s : string) : strings.TrimPrefix (pre +:+ s) pre = s.
Proof.
  unfold strings.TrimPrefix. rewrite HasPrefix_app.
  induction pre as [|c pre IH]; simpl.
  - rewrite Nat.sub_0_r. apply substring_all.
  - apply IH.
Qed.

Lemma TrimPrefix_other (s pre : string) :
  strings.HasPrefix s pre = false → strings.TrimPrefix s pre = s.
Proof. unfold strings.TrimPrefix. by intros ->. Qed.

(** X19.  A /token request whose body has neither a code nor an access
    token is answered with one 400, and the server is not called: the world
    is untouched. *)
Theorem X19_token_request_needs_code_or_token (t : gmap string string) w :
  index t "code" = "" →
  index t "accessToken" = "" →
  service.CreateToken t w
  = ([service.HTTPError 400 "Bad Request, Please check the request content"], w).
Proof.
  intros Hcode Htok. unfold service.CreateToken. rewrite Hcode, Htok.
  rewrite !bool_decide_eq_false_2 by (by intros Hne; apply Hne). done.
Qed.

(** X20.  In a /token request the code wins over the access token: with a
    non-empty code the answer and the effects depend on the code alone. *)
Theorem X20_token_request_prefers_code (t t' : gmap string string) w :
  index t "code" ≠ "" →
  index t' "code" = index t "code" →
  service.CreateToken t' w = service.CreateToken t w.
Proof.
  intros Hcode Hsame. unfold service.CreateToken. rewrite Hsame.
  by rewrite !bool_decide_eq_true_2 by done.
Qed.

(** What the /me/identities handler writes for an outcome of the server. *)
Definition identities_answer (r : list client.Identity * option error)
  : service.Write :=
  match r.2 with
  | None => service.WriteIdentityCollection r.1
  | Some _ => service.HTTPError 401 "Unauthorized, failed to get identities"
  end.

(** X21.  A header "Bearer <token>" makes the /me/identities handler call
    the server with exactly <token> and write one answer: the identities, or
    a 401 when the server fails. *)
Theorem X21_bearer_token_is_extracted (accessToken : string) w :
  service.GetIdentities ("Bearer " +:+ accessToken) w
  = ([identities_answer (server.GetIdentities accessToken w).1],
     (server.GetIdentities accessToken w).2).
Proof.
  unfold service.GetIdentities.
  rewrite bool_decide_eq_true_2 by done.
  rewrite HasPrefix_app, TrimPrefix_app. unfold bind, identities_answer. simpl.
  by destruct (server.GetIdentities accessToken w) as [[identities [e|]] w'].
Qed.

(** X22.  A non-empty header that does not start with "Bearer " is answered
    with a 401, but the handler goes on: it calls the server with the whole
    header as the token and writes a second answer. *)
Theorem X22_malformed_header_still_reaches_server (authHeader : string) w :
  authHeader ≠ "" →
  strings.HasPrefix authHeader "Bearer " = false →
  service.GetIdentities authHeader w
  = ([service.HTTPError 401 "Unauthorized, please provide a valid token";
      identities_answer (server.GetIdentities authHeader w).1],
     (server.GetIdentities authHeader w).2).
Proof.
  intros Hne Hpre. unfold service.GetIdentities.
  rewrite bool_decide_eq_true_2 by done.
  rewrite Hpre, TrimPrefix_other by done. unfold bind, identities_answer. simpl.
  by destruct (server.GetIdentities authHeader w) as [[identities [e|]] w'].
Qed.

(** X23.  The /identities handler searches by name with an exact match
    only, and only for the name given: any search it adds to the trace has
    [exactMatch = true] and that name. *)
Theorem X23_name_search_is_exact (authHeader externalID externalIDType name : string)
    w (searched : string) (exactMatch : bool) (accessToken : string) :
  EvSearchIdentities searched exactMatch accessToken
    ∈ trace (service.SearchIdentities authHeader externalID externalIDType name w).2 →
  EvSearchIdentities searched exactMatch accessToken ∈ trace w ∨
  (exactMatch = true ∧ searched = name).
Proof.
  unfold service.SearchIdentities. case_bool_decide; [|by left].
  destruct (bool_decide (externalID ≠ "") && bool_decide (externalIDType ≠ "")).
  - unfold bind, server.GetIdentity, bind, get_provider, emit, ret.
    destruct (provider w) as [prov|]; simpl; [|by left].
    destruct (providers.GetIdentity _ _ _ _); simpl;
      rewrite elem_of_app, list_elem_of_singleton; intros [?|?]; by left.
  - case_bool_decide; [|by left].
    unfold bind, server.SearchIdentities, bind, get_provider, emit, ret.
    destruct (provider w) as [prov|]; simpl; [|by left].
    destruct (providers.SearchIdentities _ _ _ _); simpl;
      rewrite elem_of_app, list_elem_of_singleton;
      (intros [?|Hev]; [by left|right; by injection Hev as -> ->]).
Qed.

(** X24.  The POST /authconfig handler always goes on to
    [server.UpdateConfig], also after reporting an unreadable or undecodable
    body or a missing provider; everything it writes is a 400, and it writes
    nothing exactly when the body was read and decoded, the provider is
    named and the server succeeded. *)
Theorem X24_authconfig_handler_answers (readErr unmarshalErr : bool) authConfig w :
  (service.UpdateConfig readErr unmarshalErr authConfig w).2
  = (server.UpdateConfig authConfig w).2 ∧
  Forall (λ x, ∃ message, x = service.HTTPError 400 message)
    (service.UpdateConfig readErr unmarshalErr authConfig w).1 ∧
  ((service.UpdateConfig readErr unmarshalErr authConfig w).1 = [] ↔
   readErr = false ∧ unmarshalErr = false ∧ model.Provider authConfig ≠ "" ∧
   (server.UpdateConfig authConfig w).1 = None).
Proof.
  unfold service.UpdateConfig, bind, ret.
  destruct (server.UpdateConfig authConfig w) as [err w']. simpl.
  split; [done|]. split.
  - destruct readErr, unmarshalErr; simpl; repeat case_bool_decide; simpl;
      repeat constructor; by eexists.
  - destruct readErr, unmarshalErr; simpl; repeat case_bool_decide; simpl;
      split; try done; try (intros (? & ? & ? & ?); done).
Qed.

End Verification.

(** ** The theorems at the sample deployment *)

Section Witnesses.

Import server sample.

Lemma C5_token_needs_provider_witness :
  CreateToken "good-code" (world None ∅ [])
    = (("", Some "No auth provider configured"), world None ∅ []) ∧
  RefreshToken "good-code" (world None ∅ [])
    = (("", Some "No auth provider configured"), world None ∅ []).
Proof. apply (C5_token_needs_provider (world None ∅ []) "good-code"). reflexivity. Defined.

Lemma C6_idList_derived_from_identities_witness :
  EvSign (payload_of (token_for "t0")) ∈ trace (world (Some loaded) ∅ []) ∨
  consistent (payload_of (token_for "t0")).
Proof.
  apply (C6_idList_derived_from_identities (world (Some loaded) ∅ []) "good-code").
  left. vm_compute. apply list_elem_of_In. right. left. reflexivity.
Defined.

Lemma C3_empty_provider_is_rejected_witness :
  UpdateConfig unnamed (world (Some loaded) earlier [])
    = (Some "Could not get the  auth provider", world (Some loaded) earlier []) ∧
  ∃ writes,
    service.UpdateConfig false false unnamed (world (Some loaded) earlier [])
      = (writes, world (Some loaded) earlier []) ∧
    (service.HTTPError service.StatusBadRequest
       "Bad Request, Please check the request content, Provider is a required field"
       ∈ writes) ∧
    Forall (λ x, ∃ message, x = service.HTTPError 400 message) writes.
Proof.
  apply (C3_empty_provider_is_rejected unnamed (world (Some loaded) earlier [])
           false false); reflexivity.
Defined.

Lemma C7_disabling_keeps_configured_provider_witness :
  ∃ r w' evs,
    UpdateConfig (config false "restricted" []) (world (Some loaded) earlier [])
      = (r, w') ∧
    db (rancherClient w') !! providerSetting = earlier !! providerSetting ∧
    trace w' = [] ++ evs ∧
    (EvSettingById providerSetting ∉ evs) ∧
    ∀ value, EvSettingUpdate providerSetting value ∉ evs.
Proof.
  apply (C7_disabling_keeps_configured_provider
           (config false "restricted" []) (world (Some loaded) earlier [])).
  - reflexivity.
  - intros newProvider Hinit. vm_compute in Hinit.
    injection Hinit as <-. vm_compute. reflexivity.
Defined.

Lemma C8_store_failure_aborts_before_swap_witness :
  ∃ r w',
    UpdateConfig (config true "restricted" [])
      (world None earlier [None; None; None; Some "store unavailable"]) = (r, w') ∧
    match r with
    | Some e =>
        (∃ m, first_fault [None; None; None; Some "store unavailable"] m e ∧
              faults (rancherClient w')
              = drop (S m) [None; None; None; Some "store unavailable"]) ∧
        provider w' = None ∧
        authConfigInMemory w' = config_zero
    | None =>
        (∃ n, quiet [None; None; None; Some "store unavailable"] n ∧
              faults (rancherClient w')
              = drop n [None; None; None; Some "store unavailable"]) ∧
        provider w' = Some loaded ∧
        authConfigInMemory w' = config true "restricted" [] ∧
        ∀ key value,
          settings_of (world None earlier [None; None; None; Some "store unavailable"])
            (config true "restricted" []) loaded !! key = Some value →
          value ≠ "" →
          db (rancherClient w') !! key = Some value
    end.
Proof.
  apply (C8_store_failure_aborts_before_swap (config true "restricted" [])
           (world None earlier [None; None; None; Some "store unavailable"]) loaded).
  vm_compute. reflexivity.
Defined.

Lemma C9_empty_value_is_never_written_witness :
  ∃ r w' evs,
    updateSettings {[ accessModeSetting := ""; securitySetting := "false" ]}
      (world None earlier []) = (r, w') ∧
    db (rancherClient w') !! accessModeSetting = earlier !! accessModeSetting ∧
    trace w' = [] ++ evs ∧
    (EvSettingById accessModeSetting ∉ evs) ∧
    ∀ value, EvSettingUpdate accessModeSetting value ∉ evs.
Proof.
  apply (C9_empty_value_is_never_written
           {[ accessModeSetting := ""; securitySetting := "false" ]}
           accessModeSetting (world None earlier [])).
  vm_compute. reflexivity.
Defined.

Lemma C10_allow_list_needs_active_provider_witness :
  getAllowedIDString [resolved "abc" "user"] (world None earlier [])
    = ("", world None earlier []) ∧
  ∃ r w' evs,
    UpdateConfig (config true "restricted" [resolved "abc" "user"])
      (world None earlier []) = (r, w') ∧
    db (rancherClient w') !! allowedIdentitiesSetting
      = earlier !! allowedIdentitiesSetting ∧
    trace w' = [] ++ evs ∧
    ∀ value, EvSettingUpdate allowedIdentitiesSetting value ∉ evs.
Proof.
  apply (C10_allow_list_needs_active_provider
           (config true "restricted" [resolved "abc" "user"]) (world None earlier [])).
  reflexivity.
Defined.






(** C2: the code at the failing input.  The five generic reads succeed and
    the sixth store call, the read of the provider's first key, fails.
    [GetConfig] consumes the failure and still returns a nil error;
    [Reload] returns nil as well and activates a provider loaded from the
    settings that could not be read. *)
Theorem C2_provider_settings_read_error_is_dropped :
  let w := world None earlier
             [None; None; None; None; None; Some "store unavailable"] in
  (readSettings [clientIDSetting; clientSecretSetting]
     (world None earlier [Some "store unavailable"])).1.2
    = Some "store unavailable" ∧
  (GetConfig "" w).1.2 = None ∧
  faults (rancherClient (GetConfig "" w).2) = [] ∧
  trace (GetConfig "" w).2
    = EvSettingById <$> genericSettings ++ [clientIDSetting] ∧
  (Reload w).1 = None ∧
  provider (Reload w).2 = Some {| clientID := ""; clientSecret := "" |}.
Proof. repeat split; vm_compute; reflexivity. Qed.

Lemma X1_readSettings_returns_stored_values_witness :
  ∃ result w',
    readSettings [accessModeSetting; "no.such.setting"] (world None earlier [])
    = ((result, None), w') ∧
    (∀ key, result !! key
            = if bool_decide (key ∈ [accessModeSetting; "no.such.setting"])
              then Some (index earlier key) else None) ∧
    db (rancherClient w') = earlier ∧
    provider w' = None ∧
    authConfigInMemory w' = config_zero ∧
    trace w' = [] ++ (EvSettingById <$> [accessModeSetting; "no.such.setting"]).
Proof.
  apply (X1_readSettings_returns_stored_values
           [accessModeSetting; "no.such.setting"] (world None earlier [])).
  vm_compute. reflexivity.
Defined.

Lemma X2_readSettings_stops_at_first_failure_witness :
  ∃ m result w',
    readSettings genericSettings (world None earlier [None; Some "timeout"; None])
    = ((result, Some "timeout"), w') ∧
    first_fault [None; Some "timeout"; None] m "timeout" ∧
    m < List.length genericSettings ∧
    (∀ key, result !! key
            = if bool_decide (key ∈ take m genericSettings)
              then Some (index earlier key) else None) ∧
    trace w' = [] ++ (EvSettingById <$> take (S m) genericSettings) ∧
    faults (rancherClient w') = drop (S m) [None; Some "timeout"; None].
Proof.
  apply (X2_readSettings_stops_at_first_failure genericSettings
           (world None earlier [None; Some "timeout"; None]) "timeout").
  vm_compute. reflexivity.
Defined.

Lemma X3_updateSettings_stores_nonempty_values_witness :
  let settings : gmap string string :=
    {[ accessModeSetting := ""; securitySetting := "false" ]} in
  (∀ key,
     db (rancherClient (updateSettings settings (world None earlier [])).2) !! key
     = match settings !! key with
       | Some value => if bool_decide (value = "") then earlier !! key else Some value
       | None => earlier !! key
       end) ∧
  provider (updateSettings settings (world None earlier [])).2 = None ∧
  authConfigInMemory (updateSettings settings (world None earlier [])).2 = config_zero.
Proof.
  apply (X3_updateSettings_stores_nonempty_values
           {[ accessModeSetting := ""; securitySetting := "false" ]}
           (world None earlier [])).
  vm_compute. reflexivity.
Defined.

Lemma X4_no_failure_without_store_fault_witness :
  (updateSettings {[ securitySetting := "false" ]}
     (world None earlier [None; None])).1 = None ∧
  (readSettings genericSettings (world None earlier [None; None])).1.2 = None ∧
  (UpdateConfig unnamed (world None earlier [None; None])).1
  = match initProviderWithConfig (P := Github) unnamed with
    | inl err => Some err
    | inr _ => None
    end.
Proof.
  apply (X4_no_failure_without_store_fault {[ securitySetting := "false" ]}
           genericSettings unnamed (world None earlier [None; None])).
  repeat constructor.
Defined.

Lemma X5_updateSettings_one_round_trip_per_key_witness :
  trace (updateSettings {[ accessModeSetting := ""; securitySetting := "false" ]}
           (world None earlier [])).2
  = [] ++ flat_map round_trip_calls
            (range {[ accessModeSetting := ""; securitySetting := "false" ]}).
Proof.
  apply (X5_updateSettings_one_round_trip_per_key
           {[ accessModeSetting := ""; securitySetting := "false" ]}
           (world None earlier [])).
  vm_compute. reflexivity.
Defined.

Lemma X7_enabling_writes_configured_provider_witness :
  let w' := (UpdateConfig (config true "restricted" []) (world None ∅ [])).2 in
  db (rancherClient w') !! providerSetting = Some "githubconfig" ∧
  db (rancherClient w') !! providerNameSetting = Some "githubconfig" ∧
  db (rancherClient w') !! securitySetting = Some "true" ∧
  authConfigInMemory w' = config true "restricted" [].
Proof.
  apply (X7_enabling_writes_configured_provider
           (config true "restricted" []) (world None ∅ [])).
  - reflexivity.
  - reflexivity.
  - vm_compute. reflexivity.
Defined.

Lemma X8_UpdateConfig_twice_same_store_witness :
  db (rancherClient
        (UpdateConfig (config true "restricted" [resolved "abc" "user"])
           (UpdateConfig (config true "restricted" [resolved "abc" "user"])
              (world (Some loaded) earlier [None; None])).2).2)
  = db (rancherClient
          (UpdateConfig (config true "restricted" [resolved "abc" "user"])
             (world (Some loaded) earlier [None; None])).2).
Proof.
  apply (X8_UpdateConfig_twice_same_store
           (config true "restricted" [resolved "abc" "user"])
           (world (Some loaded) earlier [None; None])).
  - discriminate.
  - repeat constructor.
Defined.

Lemma X12_token_is_signed_provider_answer_witness :
  ∃ prov token,
    provider (world (Some loaded) ∅ []) = Some prov ∧
    provider_answer false prov "good-code" = inr token ∧
    util.CreateTokenWithPayload (payload_of token)
    = inr (token_op false "good-code" (world (Some loaded) ∅ [])).1.1 ∧
    trace (token_op false "good-code" (world (Some loaded) ∅ [])).2
    = [] ++ [provider_call false "good-code"; EvSign (payload_of token)].
Proof.
  apply (X12_token_is_signed_provider_answer false "good-code"
           (world (Some loaded) ∅ [])).
  vm_compute. reflexivity.
Defined.


Lemma X15_identity_operations_need_provider_witness :
  GetIdentities "t0" (world None ∅ [])
  = (([], Some "No auth provider configured"), world None ∅ []) ∧
  GetIdentity "abc" "user" "t0" (world None ∅ [])
  = ((client.Identity_zero, Some "No auth provider configured"), world None ∅ []) ∧
  SearchIdentities "octocat" true "t0" (world None ∅ [])
  = (([], Some "No auth provider configured"), world None ∅ []).
Proof.
  apply (X15_identity_operations_need_provider "octocat" "t0" "t0" true
           (world None ∅ [])).
  reflexivity.
Defined.

Lemma X16_failed_lookups_fall_back_to_stubs_witness :
  (getAllowedIdentities "user:abc,malformed,org:x:y" "stale"
     (world (Some loaded) ∅ [])).1
  = (getAllowedIdentities "user:abc,malformed,org:x:y" ""
       (world (Some loaded) ∅ [])).1.
Proof.
  apply (X16_failed_lookups_fall_back_to_stubs "user:abc,malformed,org:x:y" "stale"
           (world (Some loaded) ∅ []) loaded).
  - reflexivity.
  - intros externalID externalIDType idn. vm_compute. discriminate.
Defined.

Lemma X18_stubs_survive_serialization_witness :
  getAllowedIdentities
    (getAllowedIDString [stub "user:abc" "user" "abc"; stub "org:x:y" "org" "x:y"]
       (world (Some loaded) ∅ [])).1 "" (world (Some loaded) ∅ [])
  = ([stub "user:abc" "user" "abc"; stub "org:x:y" "org" "x:y"],
     world (Some loaded) ∅ []).
Proof.
  apply (X18_stubs_survive_serialization
           [stub "user:abc" "user" "abc"; stub "org:x:y" "org" "x:y"]
           (world (Some loaded) ∅ [])).
  - discriminate.
  - repeat constructor.
  - repeat constructor.
Defined.

Lemma X19_token_request_needs_code_or_token_witness :
  service.CreateToken {[ "grant" := "password" ]} (world (Some loaded) ∅ [])
  = ([service.HTTPError 400 "Bad Request, Please check the request content"],
     world (Some loaded) ∅ []).
Proof.
  apply (X19_token_request_needs_code_or_token {[ "grant" := "password" ]}
           (world (Some loaded) ∅ [])); reflexivity.
Defined.

Lemma X20_token_request_prefers_code_witness :
  service.CreateToken {[ "code" := "good-code" ]} (world (Some loaded) ∅ [])
  = service.CreateToken {[ "code" := "good-code"; "accessToken" := "t0" ]}
      (world (Some loaded) ∅ []).
Proof.
  apply (X20_token_request_prefers_code
           {[ "code" := "good-code"; "accessToken" := "t0" ]}
           {[ "code" := "good-code" ]} (world (Some loaded) ∅ [])).
  - vm_compute. discriminate.
  - reflexivity.
Defined.

Lemma X22_malformed_header_still_reaches_server_witness :
  service.GetIdentities "Basic dXNlcg" (world (Some loaded) ∅ [])
  = ([service.HTTPError 401 "Unauthorized, please provide a valid token";
      identities_answer
        (server.GetIdentities "Basic dXNlcg" (world (Some loaded) ∅ [])).1],
     (server.GetIdentities "Basic dXNlcg" (world (Some loaded) ∅ [])).2).
Proof.
  apply (X22_malformed_header_still_reaches_server "Basic dXNlcg"
           (world (Some loaded) ∅ [])).
  - discriminate.
  - reflexivity.
Defined.

Lemma X23_name_search_is_exact_witness :
  EvSearchIdentities "octocat" true "t0" ∈ trace (world (Some loaded) ∅ []) ∨
  (true = true ∧ "octocat" = "octocat").
Proof.
  apply (X23_name_search_is_exact "Bearer t0" "" "" "octocat"
           (world (Some loaded) ∅ []) "octocat" true "t0").
  vm_compute. constructor.
Defined.

End Witnesses.
